(** * The comparison-identity pass of tree-ssa-cmp.cc

    A shallow embedding of the GIMPLE pass that turns [(x - y) CMP 0] into
    [x CMP y], and [0 CMP (x - y)] into [y CMP x], for signed integers and
    CMP one of <, <=, >, >=.

    Trees and statements are values; the function body is an explicit store
    (blocks of statements plus the table of SSA names, each pointing at its
    defining statement), threaded through the walker the way the C++ code
    mutates it in place. *)

From Stdlib Require Import ZArith Bool Lia.
From stdpp Require Import base option list gmap.

Set Warnings "-register-all".

(** ** Tree codes *)

(** Modelled from the spec: the enumeration of tree.def is declared
    elsewhere in the compiler.  The codes this pass can meet are listed in the
    order tree.def gives them; only that order matters, and in it the four
    ordered comparisons are consecutive, [LT_EXPR] first and [GE_EXPR]
    last. *)
Inductive tree_code :=
  | ERROR_MARK
  | ENUMERAL_TYPE | BOOLEAN_TYPE | INTEGER_TYPE | REAL_TYPE | POINTER_TYPE
  | INTEGER_CST | REAL_CST
  | VAR_DECL | PARM_DECL
  | PLUS_EXPR | MINUS_EXPR | MULT_EXPR | POINTER_DIFF_EXPR
  | NEGATE_EXPR | BIT_AND_EXPR
  | LT_EXPR | LE_EXPR | GT_EXPR | GE_EXPR
  | LTGT_EXPR | EQ_EXPR | NE_EXPR
  | UNORDERED_EXPR | ORDERED_EXPR
  | UNLT_EXPR | UNLE_EXPR | UNGT_EXPR | UNGE_EXPR | UNEQ_EXPR
  | NOP_EXPR
  | SSA_NAME.

#[global] Instance tree_code_eq_dec : EqDecision tree_code.
Proof. solve_decision. Defined.

(** The numeric value of a code, as [enum tree_code] orders them. *)
Definition tree_code_index (c : tree_code) : Z :=
  match c with
  | ERROR_MARK => 0
  | ENUMERAL_TYPE => 1 | BOOLEAN_TYPE => 2 | INTEGER_TYPE => 3
  | REAL_TYPE => 4 | POINTER_TYPE => 5
  | INTEGER_CST => 6 | REAL_CST => 7
  | VAR_DECL => 8 | PARM_DECL => 9
  | PLUS_EXPR => 10 | MINUS_EXPR => 11 | MULT_EXPR => 12
  | POINTER_DIFF_EXPR => 13
  | NEGATE_EXPR => 14 | BIT_AND_EXPR => 15
  | LT_EXPR => 16 | LE_EXPR => 17 | GT_EXPR => 18 | GE_EXPR => 19
  | LTGT_EXPR => 20 | EQ_EXPR => 21 | NE_EXPR => 22
  | UNORDERED_EXPR => 23 | ORDERED_EXPR => 24
  | UNLT_EXPR => 25 | UNLE_EXPR => 26 | UNGT_EXPR => 27 | UNGE_EXPR => 28
  | UNEQ_EXPR => 29
  | NOP_EXPR => 30
  | SSA_NAME => 31
  end%Z.

(** The four ordered relational operators. *)
Definition ordered_comparison (c : tree_code) : bool :=
  match c with
  | LT_EXPR | LE_EXPR | GT_EXPR | GE_EXPR => true
  | _ => false
  end.

(** ** Types and trees *)

Record tree_type := mk_type {
  TYPE_CODE : tree_code;      (* TREE_CODE of the type node *)
  TYPE_UNSIGNED : bool;
  TYPE_PRECISION : Z
}.

#[global] Instance tree_type_eq_dec : EqDecision tree_type.
Proof. solve_decision. Defined.

(** A tree node.  An SSA name is identified by its version; the node it
    denotes is shared by all its occurrences, and its defining statement is
    found through the function's table of SSA names. *)
Inductive tree :=
  | IntegerCst (type : tree_type) (value : Z)
  | RealCst (type : tree_type) (bits : Z)
  | VarDecl (type : tree_type) (uid : nat)
  | ParmDecl (type : tree_type) (uid : nat)
  | SsaName (type : tree_type) (version : nat)
  | Expr2 (code : tree_code) (type : tree_type) (op0 op1 : tree).

#[global] Instance tree_eq_dec : EqDecision tree.
Proof. solve_decision. Defined.

Definition TREE_CODE (t : tree) : tree_code :=
  match t with
  | IntegerCst _ _ => INTEGER_CST
  | RealCst _ _ => REAL_CST
  | VarDecl _ _ => VAR_DECL
  | ParmDecl _ _ => PARM_DECL
  | SsaName _ _ => SSA_NAME
  | Expr2 code _ _ _ => code
  end.

Definition TREE_TYPE (t : tree) : tree_type :=
  match t with
  | IntegerCst ty _ | RealCst ty _ | VarDecl ty _ | ParmDecl ty _
  | SsaName ty _ | Expr2 _ ty _ _ => ty
  end.

(** [TREE_OPERAND] is only meaningful on expression nodes; on any other
    node (where GCC's tree checking would stop the compiler) the node is
    handed back.  The pass applies it to the MINUS_EXPR it has just built. *)
Definition TREE_OPERAND (t : tree) (i : nat) : tree :=
  match t with
  | Expr2 _ _ op0 op1 => match i with O => op0 | _ => op1 end
  | _ => t
  end.

Definition build2 (code : tree_code) (type : tree_type) (op0 op1 : tree) : tree :=
  Expr2 code type op0 op1.

(** Modelled from the spec: [integer_zerop] lives in tree.cc and is only
    called here.  It answers whether the node is the integer constant zero,
    which is how the classifier's own comment puts it ("If EXPR is an
    integer zero, return it"): the value of the constant is tested, the
    signedness and the width of its type are not. *)
Definition integer_zerop (t : tree) : bool :=
  match t with
  | IntegerCst _ value => (value =? 0)%Z
  | _ => false
  end.

(** ** GIMPLE statements *)

(** The statement classes of gimple.h, with the operands this pass reads
    or writes, and the accessors under the names the pass calls them by. *)

Inductive gimple_code_t :=
  | GIMPLE_NOP | GIMPLE_LABEL | GIMPLE_ASSIGN | GIMPLE_CALL
  | GIMPLE_COND | GIMPLE_PHI | GIMPLE_RETURN.

#[global] Instance gimple_code_eq_dec : EqDecision gimple_code_t.
Proof. solve_decision. Defined.

(** Statements, one constructor per statement class.  An assignment keeps
    its operand slots as GCC does: [rhs2] is absent for single and unary
    right-hand sides. *)
Inductive gimple :=
  | gnop
  | glabel (label : nat)
  | gassign (lhs : tree) (subcode : tree_code) (rhs1 : tree) (rhs2 : option tree)
  | gcall (lhs : option tree) (fn : nat) (args : list tree)
  | gcond (code : tree_code) (lhs rhs : tree)
  | gphi (result : tree) (args : list tree)
  | greturn (retval : option tree).

#[global] Instance gimple_eq_dec : EqDecision gimple.
Proof. solve_decision. Defined.

Definition gimple_code (g : gimple) : gimple_code_t :=
  match g with
  | gnop => GIMPLE_NOP
  | glabel _ => GIMPLE_LABEL
  | gassign _ _ _ _ => GIMPLE_ASSIGN
  | gcall _ _ _ => GIMPLE_CALL
  | gcond _ _ _ => GIMPLE_COND
  | gphi _ _ => GIMPLE_PHI
  | greturn _ => GIMPLE_RETURN
  end.

Definition is_gimple_assign (g : gimple) : bool :=
  bool_decide (gimple_code g = GIMPLE_ASSIGN).

Definition gimple_assign_rhs_code (g : gimple) : tree_code :=
  match g with
  | gassign _ subcode _ _ => subcode
  | _ => ERROR_MARK
  end.

Definition gimple_assign_rhs1 (g : gimple) : option tree :=
  match g with
  | gassign _ _ rhs1 _ => Some rhs1
  | _ => None
  end.

Definition gimple_assign_rhs2 (g : gimple) : option tree :=
  match g with
  | gassign _ _ _ rhs2 => rhs2
  | _ => None
  end.

Definition gimple_get_lhs (g : gimple) : option tree :=
  match g with
  | gassign lhs _ _ _ => Some lhs
  | gcall lhs _ _ => lhs
  | gphi result _ => Some result
  | _ => None
  end.

Definition gimple_cond_set_lhs (g : gimple) (lhs : tree) : gimple :=
  match g with
  | gcond code _ rhs => gcond code lhs rhs
  | _ => g
  end.

Definition gimple_cond_set_rhs (g : gimple) (rhs : tree) : gimple :=
  match g with
  | gcond code lhs _ => gcond code lhs rhs
  | _ => g
  end.

(** [update_stmt] rebuilds the operand caches of a statement; the embedding
    keeps no such caches, so the statement itself is what is left. *)
Definition update_stmt (g : gimple) : gimple := g.

(** ** The function body *)

Record edge := mk_edge {
  e_dest : nat;
  e_flags : Z
}.

#[global] Instance edge_eq_dec : EqDecision edge.
Proof. solve_decision. Defined.

Record basic_block := mk_bb {
  phi_nodes : list gimple;
  bb_seq : list gimple;
  succs : list edge
}.

(** A pointer to a statement: the block it sits in, and its place in the
    block's PHI nodes or in its statement sequence. *)
Inductive gimple_ref :=
  | in_phi_nodes (bb i : nat)
  | in_bb_seq (bb i : nat).

#[global] Instance gimple_ref_eq_dec : EqDecision gimple_ref.
Proof. solve_decision. Defined.

(** The function being compiled: its blocks, indexed by block number, and
    the defining-statement pointer of every SSA name, indexed by version.
    A name without an entry is a default definition. *)
Record function := mk_function {
  basic_block_info : list basic_block;
  ssa_names : gmap nat gimple_ref
}.

Definition lookup_stmt (f : function) (r : gimple_ref) : option gimple :=
  match r with
  | in_phi_nodes bb i => basic_block_info f !! bb ≫= λ b, phi_nodes b !! i
  | in_bb_seq bb i => basic_block_info f !! bb ≫= λ b, bb_seq b !! i
  end.

(** The defining statement of an SSA name, read through the store; a
    default definition (and a dangling pointer) reads as GIMPLE_NOP. *)
Definition SSA_NAME_DEF_STMT (f : function) (expr : tree) : gimple :=
  match expr with
  | SsaName _ version =>
      match ssa_names f !! version with
      | Some r => default gnop (lookup_stmt f r)
      | None => gnop
      end
  | _ => gnop
  end.

(** ** The pass: classification of an operand *)

(** True if VAR is a signed integer, false otherwise. *)
Definition is_signed_integer (var : tree) : bool :=
  bool_decide (TYPE_CODE (TREE_TYPE var) = INTEGER_TYPE)
  && negb (TYPE_UNSIGNED (TREE_TYPE var)).

(** If EXPR is an integer zero, return it.  If EXPR is SSA_NAME, and its
    defining statement is a subtraction of two signed integers, return the
    MINUS_EXPR.  Otherwise, return NULL_TREE ([None]).

    A MINUS_EXPR assignment always carries its two operands; the last
    branch, for an operand slot that is not there, is never taken on a
    statement GCC can build. *)
Definition prop_integer_zero_or_minus_expr (f : function) (expr : tree) : option tree :=
  if integer_zerop expr then Some expr
  else if negb (bool_decide (TREE_CODE expr = SSA_NAME)) then None
  else
    let defining_stmt := SSA_NAME_DEF_STMT f expr in
    if negb (is_gimple_assign defining_stmt)
       || negb (bool_decide (gimple_assign_rhs_code defining_stmt = MINUS_EXPR))
    then None
    else
      match gimple_assign_rhs1 defining_stmt, gimple_assign_rhs2 defining_stmt with
      | Some rhs1, Some rhs2 =>
          if negb (is_signed_integer rhs1) then None
          else if negb (is_signed_integer rhs2) then None
          else Some (build2 MINUS_EXPR (TREE_TYPE expr) rhs1 rhs2)
      | _, _ => None
      end.

(** ** The pass: rewriting one condition *)

(** Optimize [(x - y) CMP 0] to [x CMP y] and [0 CMP (x - y)] to [y CMP x],
    where CMP is either <, <=, >, or >=.  The statement handed back is the
    condition as the C++ code leaves it. *)
Definition optimize_signed_comparison (f : function) (stmt : gimple) : gimple :=
  match stmt with
  | gcond code cond_lhs cond_rhs =>
      if (tree_code_index code <? tree_code_index LT_EXPR)%Z
         || (tree_code_index GE_EXPR <? tree_code_index code)%Z
      then stmt
      else
        match prop_integer_zero_or_minus_expr f cond_lhs with
        | None => stmt
        | Some lhs =>
            match prop_integer_zero_or_minus_expr f cond_rhs with
            | None => stmt
            | Some rhs =>
                if bool_decide (TREE_CODE lhs = MINUS_EXPR) && integer_zerop rhs
                then
                  (* Case 1: (x - y) CMP 0  =>  x CMP y *)
                  let x := TREE_OPERAND lhs 0 in
                  let y := TREE_OPERAND lhs 1 in
                  update_stmt (gimple_cond_set_rhs (gimple_cond_set_lhs stmt x) y)
                else if integer_zerop lhs && bool_decide (TREE_CODE rhs = MINUS_EXPR)
                then
                  (* Case 2: 0 CMP (x - y)  =>  y CMP x *)
                  let x := TREE_OPERAND rhs 0 in
                  let y := TREE_OPERAND rhs 1 in
                  update_stmt (gimple_cond_set_rhs (gimple_cond_set_lhs stmt y) x)
                else stmt
            end
        end
  | _ => stmt
  end.

(** ** The pass: visiting the conditions of a function *)

(** The statement an iterator of block [bb] points at when it stands at
    position [i]; [None] is the end of the sequence. *)
Definition gsi_stmt (f : function) (bb i : nat) : option gimple :=
  lookup_stmt f (in_bb_seq bb i).

(** Writing through a statement pointer: the statement at position [i] of
    block [bb] becomes [s], everything else in the store stays. *)
Definition set_bb_seq (b : basic_block) (i : nat) (s : gimple) : basic_block :=
  mk_bb (phi_nodes b) (<[i := s]> (bb_seq b)) (succs b).

Definition set_stmt (f : function) (bb i : nat) (s : gimple) : function :=
  mk_function (alter (λ b, set_bb_seq b i s) bb (basic_block_info f))
              (ssa_names f).

(** Modelled from the spec: [gsi_after_labels] belongs to the statement
    iterators (gimple-iterator.h) and is only called here.  It is the
    position of the first statement of the block that is not a label. *)
Fixpoint first_non_label (seq : list gimple) : nat :=
  match seq with
  | glabel _ :: rest => S (first_non_label rest)
  | _ => 0
  end.

Definition gsi_after_labels (b : basic_block) : nat :=
  first_non_label (bb_seq b).

(** One turn of the loop of [after_dom_children]: the statement under the
    iterator is optimized in place when it is a GIMPLE_COND. *)
Definition visit_stmt (bb : nat) (f : function) (i : nat) : function :=
  match gsi_stmt f bb i with
  | Some stmt =>
      if bool_decide (gimple_code stmt = GIMPLE_COND)
      then set_stmt f bb i (optimize_signed_comparison f stmt)
      else f
  | None => f
  end.

(** The positions the iterator runs through, from the first statement after
    the labels to the end of the block.  The loop replaces statements and
    never inserts or removes one, so the end is where it was at the start. *)
Definition gsi_positions (b : basic_block) : list nat :=
  seq (gsi_after_labels b) (length (bb_seq b) - gsi_after_labels b).

Definition after_dom_children (f : function) (bb : nat) : function :=
  match basic_block_info f !! bb with
  | Some b => foldl (visit_stmt bb) f (gsi_positions b)
  | None => f
  end.

(** ** The dominator walk *)

(** The dominator tree below a block: the block and the trees of the
    blocks it immediately dominates. *)
Inductive dom_tree :=
  | dom_node (bb : nat) (sons : list dom_tree).

(** Modelled from the spec: [dom_walker::walk] belongs to domwalk.cc.  It
    goes through the dominator tree below the given block and calls
    [after_dom_children] on a block once all the blocks it dominates are
    done: a post-order walk, children before their parent. *)
Fixpoint walk (t : dom_tree) (f : function) : function :=
  match t with
  | dom_node bb sons => after_dom_children (foldl (λ g s, walk s g) f sons) bb
  end.

(** The order in which the walk reaches the blocks. *)
Fixpoint walk_order (t : dom_tree) : list nat :=
  match t with
  | dom_node bb sons => (sons ≫= walk_order) ++ [bb]
  end.

Section Pass.

(** The dominator computation is an external collaborator.  It reads the
    edges of the control-flow graph and yields the dominator tree below
    the entry block. *)
Variable compute_dominators : list (list edge) → dom_tree.

Definition cfg_edges (f : function) : list (list edge) :=
  succs <$> basic_block_info f.

Definition calculate_dominance_info (f : function) : dom_tree :=
  compute_dominators (cfg_edges f).

(** [pass_cmp::execute]: compute the dominators, then walk them from the
    entry block.  The C++ function returns 0, no further TODO for the pass
    manager; what is kept here is the body it leaves. *)
Definition execute (f : function) : function :=
  walk (calculate_dominance_info f) f.

End Pass.

(** ** The gate *)

(** The two options the gate reads; GCC keeps them as ints. *)
Record options := mk_options {
  flag_tree_cmp : Z;
  flag_wrapv : Z
}.

(** If -fwrapv is enabled, this pass cannot be safely applied. *)
Definition gate (opts : options) (fn : function) : bool :=
  negb (flag_tree_cmp opts =? 0)%Z && (flag_wrapv opts =? 0)%Z.

(** Modelled from the spec: the pass manager (passes.cc) is an external
    collaborator.  It asks the gate first; when the gate says no, the pass
    performs no traversal and no mutation. *)
Definition execute_one_pass (compute_dominators : list (list edge) → dom_tree)
    (opts : options) (f : function) : function :=
  if gate opts f then execute compute_dominators f else f.

(** ** Reading a classification *)

(** The three answers of the classifier, as the rewriter tells them apart:
    a NULL_TREE is no match, a result that satisfies [integer_zerop] is the
    zero, a result whose code is MINUS_EXPR is a subtraction and carries its
    two operands. *)
Inductive classification :=
  | Zero
  | Subtraction (x y : tree)
  | NoMatch.

Definition classify (f : function) (value : tree) : classification :=
  match prop_integer_zero_or_minus_expr f value with
  | None => NoMatch
  | Some t =>
      if integer_zerop t then Zero
      else if bool_decide (TREE_CODE t = MINUS_EXPR)
           then Subtraction (TREE_OPERAND t 0) (TREE_OPERAND t 1)
           else NoMatch
  end.

(** ** Integer arithmetic of a type *)

Definition min_value (ty : tree_type) : Z :=
  if TYPE_UNSIGNED ty then 0 else - 2 ^ (TYPE_PRECISION ty - 1).

Definition max_value (ty : tree_type) : Z :=
  if TYPE_UNSIGNED ty then 2 ^ TYPE_PRECISION ty - 1
  else 2 ^ (TYPE_PRECISION ty - 1) - 1.

Definition representable (ty : tree_type) (z : Z) : Prop :=
  (min_value ty ≤ z ≤ max_value ty)%Z.

(** Two's complement wrap-around of [z] into the type. *)
Definition wrap (ty : tree_type) (z : Z) : Z :=
  if TYPE_UNSIGNED ty then z mod 2 ^ TYPE_PRECISION ty
  else (z + 2 ^ (TYPE_PRECISION ty - 1)) mod 2 ^ TYPE_PRECISION ty
       - 2 ^ (TYPE_PRECISION ty - 1).

(** What the machine computes for [a - b] in type [ty]. *)
Definition eval_minus (ty : tree_type) (a b : Z) : Z := wrap ty (a - b).

(** ** Evaluating a condition *)

(** The value of every SSA name, by version. *)
Definition environment := nat → Z.

Definition tree_value (ρ : environment) (t : tree) : option Z :=
  match t with
  | IntegerCst _ value => Some value
  | SsaName _ version => Some (ρ version)
  | _ => None
  end.

Definition eval_comparison (code : tree_code) (a b : Z) : option bool :=
  match code with
  | LT_EXPR => Some (a <? b)%Z
  | LE_EXPR => Some (a <=? b)%Z
  | GT_EXPR => Some (a >? b)%Z
  | GE_EXPR => Some (a >=? b)%Z
  | EQ_EXPR => Some (a =? b)%Z
  | NE_EXPR => Some (negb (a =? b)%Z)
  | _ => None
  end.

(** The branch a condition takes, when its operands are integers. *)
Definition eval_cond (ρ : environment) (stmt : gimple) : option bool :=
  match stmt with
  | gcond code lhs rhs =>
      a ← tree_value ρ lhs; b ← tree_value ρ rhs; eval_comparison code a b
  | _ => None
  end.

(** The environment is one the function can run into when no signed
    subtraction overflows: the value of a name defined by a subtraction of
    signed integers is what the machine computes for it, and the exact
    difference fits the type of the result. *)
Definition no_overflow_run (f : function) (ρ : environment) : Prop :=
  ∀ ty version lhs x y,
    SSA_NAME_DEF_STMT f (SsaName ty version) = gassign lhs MINUS_EXPR x (Some y) →
    is_signed_integer x = true → is_signed_integer y = true →
    ∃ a b, tree_value ρ x = Some a ∧ tree_value ρ y = Some b
           ∧ representable (TREE_TYPE lhs) (a - b)
           ∧ ρ version = eval_minus (TREE_TYPE lhs) a b.

(** ** What the pass may touch *)

(** Two statements that differ at most in the operand pair of a condition. *)
Definition same_but_operands (s s' : gimple) : Prop :=
  match s with
  | gcond code _ _ => ∃ lhs' rhs', s' = gcond code lhs' rhs'
  | _ => s' = s
  end.

Definition same_but_conds_bb (b b' : basic_block) : Prop :=
  phi_nodes b' = phi_nodes b
  ∧ succs b' = succs b
  ∧ Forall2 same_but_operands (bb_seq b) (bb_seq b').

(** Two function bodies that differ at most in the operand pairs of their
    conditions: same blocks, same edges, same PHI nodes, same table of SSA
    names, and statement by statement the same but for those operands. *)
Definition same_but_conds (f f' : function) : Prop :=
  ssa_names f' = ssa_names f
  ∧ Forall2 same_but_conds_bb (basic_block_info f) (basic_block_info f').

(** Statement [s] defines the SSA name of version [v]. *)
Definition defines (s : gimple) (v : nat) : Prop :=
  ∃ ty, gimple_get_lhs s = Some (SsaName ty v).

(** The SSA property: the table points every name at a statement that
    defines it, and a statement that defines a name is the one the table
    points at, so that no name has two definitions. *)
Definition ssa_form (f : function) : Prop :=
  (∀ v r, ssa_names f !! v = Some r →
          ∃ s, lookup_stmt f r = Some s ∧ defines s v)
  ∧ (∀ r s v, lookup_stmt f r = Some s → defines s v →
              ssa_names f !! v = Some r).

(** ** Traversals *)

(** A place in the function: a block and a position in its sequence. *)
Definition stmt_pos := (nat * nat)%type.

Definition visit (f : function) (p : stmt_pos) : function :=
  visit_stmt p.1 f p.2.

(** A traversal given as the list of places it visits, in order. *)
Definition traverse (order : list stmt_pos) (f : function) : function :=
  foldl visit f order.

(** The rewriting step of a visit with the rewriter held fixed: the
    condition at place [p], if there is one, is replaced by its image. *)
Definition rewrite_at (F : gimple → gimple) (f : function) (p : stmt_pos) : function :=
  match gsi_stmt f p.1 p.2 with
  | Some stmt =>
      if bool_decide (gimple_code stmt = GIMPLE_COND)
      then set_stmt f p.1 p.2 (F stmt)
      else f
  | None => f
  end.

(** The places the loop of [after_dom_children] goes through in a block,
    and those the whole walk goes through, in the order of the walk. *)
Definition block_positions (f : function) (bb : nat) : list stmt_pos :=
  match basic_block_info f !! bb with
  | Some b => (λ i, (bb, i)) <$> gsi_positions b
  | None => []
  end.

Definition walk_positions (t : dom_tree) (f : function) : list stmt_pos :=
  walk_order t ≫= block_positions f.

(** The place holds a condition. *)
Definition cond_at (f : function) (p : stmt_pos) : Prop :=
  match gsi_stmt f p.1 p.2 with
  | Some stmt => gimple_code stmt = GIMPLE_COND
  | None => False
  end.

#[global] Instance cond_at_dec (f : function) (p : stmt_pos) : Decision (cond_at f p).
Proof. unfold cond_at. destruct (gsi_stmt f p.1 p.2); apply _. Defined.

(** No chained subtraction: no subtraction of signed integers that defines
    a name has the integer zero for one operand and, for the other, a name
    that is itself such a subtraction (as [d = x - 0] after [x = a - b]). *)
Definition no_chained_subtraction (f : function) : Prop :=
  ∀ ty version lhs x y,
    SSA_NAME_DEF_STMT f (SsaName ty version) = gassign lhs MINUS_EXPR x (Some y) →
    is_signed_integer x = true → is_signed_integer y = true →
    ¬ (∃ a b, classify f x = Subtraction a b ∧ classify f y = Zero)
    ∧ ¬ (∃ a b, classify f x = Zero ∧ classify f y = Subtraction a b).

(** ** The functions of the test file, as the pass receives them *)

Definition integer_type_node : tree_type := mk_type INTEGER_TYPE false 32.
Definition unsigned_type_node : tree_type := mk_type INTEGER_TYPE true 32.
Definition float_type_node : tree_type := mk_type REAL_TYPE false 32.

Definition int_cst (value : Z) : tree := IntegerCst integer_type_node value.
Definition int_name (version : nat) : tree := SsaName integer_type_node version.

Definition EDGE_FALLTHRU : Z := 1.
Definition EDGE_TRUE_VALUE : Z := 256.
Definition EDGE_FALSE_VALUE : Z := 512.

(** The blocks shared by the test functions: entry, exit, a first block
    ending in the first condition, the call to foo, the second condition,
    the call to bar, and the return. *)
Definition test_blocks (first second : list gimple) : list basic_block :=
  [ mk_bb [] [] [mk_edge 2 EDGE_FALLTHRU];
    mk_bb [] [] [];
    mk_bb [] first [mk_edge 3 EDGE_TRUE_VALUE; mk_edge 4 EDGE_FALSE_VALUE];
    mk_bb [] [gcall None 0 []] [mk_edge 4 EDGE_FALLTHRU];
    mk_bb [] second [mk_edge 5 EDGE_TRUE_VALUE; mk_edge 6 EDGE_FALSE_VALUE];
    mk_bb [] [gcall None 1 []] [mk_edge 6 EDGE_FALLTHRU];
    mk_bb [] [greturn None] [mk_edge 1 0%Z] ].

Definition test_dominators : dom_tree :=
  dom_node 0 [dom_node 2 [dom_node 3 [];
                          dom_node 4 [dom_node 5 [];
                                      dom_node 6 [dom_node 1 []]]]].

(** [int diff = x - y; if (diff > 0) foo (); if (diff < 0) bar ();]
    with x_1(D), y_2(D) the parameters and diff_3 the difference. *)
Definition fn_f1 : function :=
  mk_function
    (test_blocks
       [gassign (int_name 3) MINUS_EXPR (int_name 1) (Some (int_name 2));
        gcond GT_EXPR (int_name 3) (int_cst 0)]
       [gcond LT_EXPR (int_name 3) (int_cst 0)])
    {[ 3 := in_bb_seq 2 0 ]}.

(** A run of it with x = 5 and y = 7, so that diff = -2. *)
Definition run_f1 : environment :=
  λ version, match version with 1 => 5%Z | 2 => 7%Z | 3 => (-2)%Z | _ => 0%Z end.

(** [if (x > y) foo (); if (x < y) bar ();] *)
Definition fn_f3 : function :=
  mk_function
    (test_blocks
       [gcond GT_EXPR (int_name 1) (int_name 2)]
       [gcond LT_EXPR (int_name 1) (int_name 2)])
    ∅.

(** [int diff = x - y; if (diff > 0) foo (); if (x < y) bar ();] *)
Definition fn_f4 : function :=
  mk_function
    (test_blocks
       [gassign (int_name 3) MINUS_EXPR (int_name 1) (Some (int_name 2));
        gcond GT_EXPR (int_name 3) (int_cst 0)]
       [gcond LT_EXPR (int_name 1) (int_name 2)])
    {[ 3 := in_bb_seq 2 0 ]}.

(** A subtraction whose second operand is the constant zero and whose
    first operand is itself a difference:
    [x = a - b; d = x - 0; if (d > 0) foo (); if (a < b) bar ();]
    with a_1(D), b_2(D), x_3 and d_4. *)
Definition fn_chain : function :=
  mk_function
    (test_blocks
       [gassign (int_name 3) MINUS_EXPR (int_name 1) (Some (int_name 2));
        gassign (int_name 4) MINUS_EXPR (int_name 3) (Some (int_cst 0));
        gcond GT_EXPR (int_name 4) (int_cst 0)]
       [gcond LT_EXPR (int_name 1) (int_name 2)])
    {[ 3 := in_bb_seq 2 0; 4 := in_bb_seq 2 1 ]}.

(** [unsigned diff = x - y; if (diff > 0) foo (); if (diff < 0) bar ();]
    with unsigned operands throughout. *)
Definition fn_unsigned : function :=
  mk_function
    (test_blocks
       [gassign (SsaName unsigned_type_node 3) MINUS_EXPR
          (SsaName unsigned_type_node 1) (Some (SsaName unsigned_type_node 2));
        gcond GT_EXPR (SsaName unsigned_type_node 3) (IntegerCst unsigned_type_node 0)]
       [gcond LT_EXPR (SsaName unsigned_type_node 3) (IntegerCst unsigned_type_node 0)])
    {[ 3 := in_bb_seq 2 0 ]}.

(** [float diff = x - y; if (diff > 0.0f) foo (); if (diff < 0.0f) bar ();] *)
Definition fn_float : function :=
  mk_function
    (test_blocks
       [gassign (SsaName float_type_node 3) MINUS_EXPR
          (SsaName float_type_node 1) (Some (SsaName float_type_node 2));
        gcond GT_EXPR (SsaName float_type_node 3) (RealCst float_type_node 0)]
       [gcond LT_EXPR (SsaName float_type_node 3) (RealCst float_type_node 0)])
    {[ 3 := in_bb_seq 2 0 ]}.

(** [int diff = x - y; if (diff > 1) foo (); if (diff != 0) bar ();] *)
Definition fn_nonzero : function :=
  mk_function
    (test_blocks
       [gassign (int_name 3) MINUS_EXPR (int_name 1) (Some (int_name 2));
        gcond GT_EXPR (int_name 3) (int_cst 1)]
       [gcond NE_EXPR (int_name 3) (int_cst 0)])
    {[ 3 := in_bb_seq 2 0 ]}.

(** The same dominator tree with the sons of every block in the opposite
    order: the walk then reaches the blocks in another order. *)
Definition test_dominators_swapped : dom_tree :=
  dom_node 0 [dom_node 2 [dom_node 4 [dom_node 6 [dom_node 1 []];
                                      dom_node 5 []];
                          dom_node 3 []]].

(** A dominator tree that stops at the first condition: the blocks behind
    it are not part of the walk. *)
Definition test_dominators_partial : dom_tree :=
  dom_node 0 [dom_node 2 [dom_node 3 []]].

(** * Properties *)

(** ** The worked scenarios *)

Example execute_f1 :
  basic_block_info (execute (λ _, test_dominators) fn_f1)
  = test_blocks
      [gassign (int_name 3) MINUS_EXPR (int_name 1) (Some (int_name 2));
       gcond GT_EXPR (int_name 1) (int_name 2)]
      [gcond LT_EXPR (int_name 1) (int_name 2)].
Proof. vm_compute. reflexivity. Qed.

Example execute_f3 : execute (λ _, test_dominators) fn_f3 = fn_f3.
Proof. vm_compute. reflexivity. Qed.

Example execute_f4 :
  basic_block_info (execute (λ _, test_dominators) fn_f4)
  = basic_block_info (execute (λ _, test_dominators) fn_f1).
Proof. vm_compute. reflexivity. Qed.

Example walk_order_test : walk_order test_dominators = [3; 5; 1; 6; 4; 2; 0].
Proof. reflexivity. Qed.

(** Unsigned and floating-point subtractions, comparisons with a constant
    other than zero and comparisons for inequality are left alone. *)
Example execute_unsigned : execute (λ _, test_dominators) fn_unsigned = fn_unsigned.
Proof. vm_compute. reflexivity. Qed.

Example execute_float : execute (λ _, test_dominators) fn_float = fn_float.
Proof. vm_compute. reflexivity. Qed.

Example execute_nonzero : execute (λ _, test_dominators) fn_nonzero = fn_nonzero.
Proof. vm_compute. reflexivity. Qed.

(** ** The classifier *)

Lemma tree_code_SSA_NAME (t : tree) :
  TREE_CODE t = SSA_NAME →
  (∃ ty version, t = SsaName ty version) ∨ (∃ ty a b, t = Expr2 SSA_NAME ty a b).
Proof.
  destruct t; simpl; intros H; try discriminate.
  - left. eauto.
  - right. subst. eauto.
Qed.

(** The three outcomes of the classifier, told apart by the shape of its
    argument. *)
Lemma prop_zero (f : function) (expr : tree) :
  integer_zerop expr = true →
  prop_integer_zero_or_minus_expr f expr = Some expr.
Proof. intros H. unfold prop_integer_zero_or_minus_expr. by rewrite H. Qed.

Lemma prop_minus (f : function) ty version lhs x y :
  SSA_NAME_DEF_STMT f (SsaName ty version) = gassign lhs MINUS_EXPR x (Some y) →
  is_signed_integer x = true → is_signed_integer y = true →
  prop_integer_zero_or_minus_expr f (SsaName ty version)
  = Some (Expr2 MINUS_EXPR ty x y).
Proof.
  intros Hdef Hx Hy. unfold prop_integer_zero_or_minus_expr.
  cbn [integer_zerop TREE_CODE]. rewrite bool_decide_eq_true_2 by done.
  cbn [negb]. rewrite Hdef. cbn. by rewrite Hx, Hy.
Qed.

Lemma prop_Some_inv (f : function) (expr t : tree) :
  prop_integer_zero_or_minus_expr f expr = Some t →
  (integer_zerop expr = true ∧ t = expr)
  ∨ (∃ ty version lhs x y,
       expr = SsaName ty version
       ∧ SSA_NAME_DEF_STMT f expr = gassign lhs MINUS_EXPR x (Some y)
       ∧ is_signed_integer x = true ∧ is_signed_integer y = true
       ∧ t = Expr2 MINUS_EXPR ty x y).
Proof.
  unfold prop_integer_zero_or_minus_expr.
  destruct (integer_zerop expr) eqn:Hz.
  { intros [= <-]. by left. }
  destruct (bool_decide (TREE_CODE expr = SSA_NAME)) eqn:Hcode; [|done].
  apply bool_decide_eq_true_1 in Hcode. cbn [negb].
  destruct (tree_code_SSA_NAME _ Hcode) as [(ty & version & ->)|(ty & a & b & ->)];
    [|done].
  destruct (SSA_NAME_DEF_STMT f (SsaName ty version)) as [| |lhs sub rhs1 rhs2| | | |] eqn:Hdef;
    try done.
  cbn. destruct (bool_decide (sub = MINUS_EXPR)) eqn:Hsub; [|done].
  apply bool_decide_eq_true_1 in Hsub. subst sub. cbn.
  destruct rhs2 as [rhs2|]; [|done].
  destruct (is_signed_integer rhs1) eqn:H1; [|done].
  destruct (is_signed_integer rhs2) eqn:H2; [|done].
  cbn. intros [= <-]. right. by exists ty, version, lhs, rhs1, rhs2.
Qed.

Lemma classify_Zero (f : function) (value : tree) :
  classify f value = Zero ↔ integer_zerop value = true.
Proof.
  unfold classify. split.
  - destruct (prop_integer_zero_or_minus_expr f value) as [t|] eqn:Hp; [|done].
    apply prop_Some_inv in Hp as [[Hz ->]|(ty & v & lhs & x & y & -> & _ & _ & _ & ->)].
    + done.
    + done.
  - intros Hz. by rewrite prop_zero, Hz.
Qed.

Lemma classify_Subtraction (f : function) (value x y : tree) :
  classify f value = Subtraction x y ↔
  ∃ ty version lhs,
    value = SsaName ty version
    ∧ SSA_NAME_DEF_STMT f value = gassign lhs MINUS_EXPR x (Some y)
    ∧ is_signed_integer x = true ∧ is_signed_integer y = true.
Proof.
  unfold classify. split.
  - destruct (prop_integer_zero_or_minus_expr f value) as [t|] eqn:Hp; [|done].
    apply prop_Some_inv in Hp
      as [[Hz ->]|(ty & v & lhs & x' & y' & -> & Hdef & Hx & Hy & ->)].
    + by rewrite Hz.
    + cbn. intros [= <- <-]. by exists ty, v, lhs.
  - intros (ty & v & lhs & -> & Hdef & Hx & Hy).
    by rewrite (prop_minus _ _ _ _ _ _ Hdef Hx Hy).
Qed.

(** The range test at the head of the rewriter keeps exactly the four
    ordered comparisons. *)
Lemma code_range_test (code : tree_code) :
  (tree_code_index code <? tree_code_index LT_EXPR)%Z
  || (tree_code_index GE_EXPR <? tree_code_index code)%Z
  = negb (ordered_comparison code).
Proof. by destruct code. Qed.

(** The rewriter, read through the classification of its two operands. *)
Lemma optimize_by_classification (f : function) code lhs rhs :
  optimize_signed_comparison f (gcond code lhs rhs)
  = if ordered_comparison code then
      match classify f lhs, classify f rhs with
      | Subtraction x y, Zero => gcond code x y
      | Zero, Subtraction x y => gcond code y x
      | _, _ => gcond code lhs rhs
      end
    else gcond code lhs rhs.
Proof.
  unfold optimize_signed_comparison. rewrite code_range_test.
  destruct (ordered_comparison code); [|done]. cbn [negb].
  unfold classify.
  destruct (prop_integer_zero_or_minus_expr f lhs) as [l|] eqn:Hl; [|done].
  destruct (prop_integer_zero_or_minus_expr f rhs) as [r|] eqn:Hr.
  2:{ destruct (integer_zerop l); [done|]. by destruct (bool_decide _). }
  apply prop_Some_inv in Hl
    as [[Hzl ->]|(tyl & vl & ll & xl & yl & -> & _ & _ & _ & ->)];
  apply prop_Some_inv in Hr
    as [[Hzr ->]|(tyr & vr & lr & xr & yr & -> & _ & _ & _ & ->)].
  - rewrite Hzl, Hzr. by destruct lhs, rhs.
  - rewrite Hzl. by destruct lhs.
  - by rewrite Hzr.
  - done.
Qed.

Lemma integer_zerop_inv (value : tree) :
  integer_zerop value = true ↔ ∃ ty, value = IntegerCst ty 0.
Proof.
  split.
  - destruct value as [ty v| | | | |]; simpl; try done.
    intros Hv. apply Z.eqb_eq in Hv. subst v. by exists ty.
  - by intros [ty ->].
Qed.

(** C3: the classifier answers [Subtraction x y] exactly when the value is
    an SSA name whose defining statement is an assignment [x - y] with both
    operands of signed integer type, [x] and [y] being the two operands of
    that statement as they stand; any other value that is not the integer
    zero is no match; and the answer depends on the function body only
    through the defining statement of the value itself, whatever defines
    [x] and [y]. *)
Theorem classifier_subtraction (f : function) (value : tree) :
  (∀ x y,
     classify f value = Subtraction x y ↔
     ∃ ty version lhs,
       value = SsaName ty version
       ∧ SSA_NAME_DEF_STMT f value = gassign lhs MINUS_EXPR x (Some y)
       ∧ is_signed_integer x = true ∧ is_signed_integer y = true)
  ∧ (integer_zerop value = false →
     (¬ ∃ ty version lhs x y,
         value = SsaName ty version
         ∧ SSA_NAME_DEF_STMT f value = gassign lhs MINUS_EXPR x (Some y)
         ∧ is_signed_integer x = true ∧ is_signed_integer y = true) →
     classify f value = NoMatch)
  ∧ (∀ f', SSA_NAME_DEF_STMT f' value = SSA_NAME_DEF_STMT f value →
           classify f' value = classify f value).
Proof.
  split; [|split].
  - intros x y. apply classify_Subtraction.
  - intros Hz Hno. destruct (classify f value) as [|x y|] eqn:Hc; [| |done].
    + apply classify_Zero in Hc. congruence.
    + apply classify_Subtraction in Hc as (ty & v & lhs & H). destruct Hno.
      by exists ty, v, lhs, x, y.
  - intros f' Hdef. unfold classify, prop_integer_zero_or_minus_expr.
    by rewrite Hdef.
Qed.

Lemma classifier_subtraction_witness :
  classify fn_chain (int_name 4) = Subtraction (int_name 3) (int_cst 0)
  ∧ classify fn_f1 (int_name 1) = NoMatch
  ∧ classify fn_f4 (int_name 3) = classify fn_f1 (int_name 3).
Proof.
  split; [|split].
  - apply (proj1 (classifier_subtraction fn_chain (int_name 4))).
    exists integer_type_node, 4%nat, (int_name 4). by vm_compute.
  - apply (proj1 (proj2 (classifier_subtraction fn_f1 (int_name 1)))).
    + reflexivity.
    + intros (ty & v & lhs & x & y & _ & Hdef & _). vm_compute in Hdef.
      discriminate Hdef.
  - apply (proj2 (proj2 (classifier_subtraction fn_f1 (int_name 3)))).
    by vm_compute.
Defined.

(** C7, as the code has it: the classifier answers [Zero] exactly when the
    value is an integer constant whose value is 0, of whatever type; the
    signedness and the width of the constant's type are not looked at, and
    no other value is classified as the zero. *)
Theorem classifier_zero (f : function) (value : tree) :
  classify f value = Zero ↔ ∃ ty, value = IntegerCst ty 0.
Proof.
  rewrite classify_Zero. apply integer_zerop_inv.
Qed.

(** C7, as stated, fails on an unsigned zero: the constant 0 of type
    unsigned int is classified as the zero although its type is not a
    signed integer type. *)
Lemma classifier_zero_unsigned :
  classify fn_f1 (IntegerCst unsigned_type_node 0) = Zero
  ∧ ¬ (∃ ty, IntegerCst unsigned_type_node 0 = IntegerCst ty 0
             ∧ TYPE_CODE ty = INTEGER_TYPE ∧ TYPE_UNSIGNED ty = false).
Proof.
  split; [reflexivity|].
  intros (ty & Heq & _ & Hsigned). injection Heq as <-. discriminate Hsigned.
Qed.

(** ** The rewriter *)

(** C2: on a condition with one of the four ordered operators, a left
    operand classified [Subtraction x y] against a right operand classified
    [Zero] leaves the condition [x code y]; a left operand classified [Zero]
    against a right operand classified [Subtraction x y] leaves [y code x];
    the operator is the same in both cases. *)
Theorem optimize_signed_comparison_cases (f : function) code lhs rhs x y :
  ordered_comparison code = true →
  (classify f lhs = Subtraction x y → classify f rhs = Zero →
   optimize_signed_comparison f (gcond code lhs rhs) = gcond code x y)
  ∧ (classify f lhs = Zero → classify f rhs = Subtraction x y →
     optimize_signed_comparison f (gcond code lhs rhs) = gcond code y x).
Proof.
  intros Hord. rewrite optimize_by_classification, Hord.
  split; intros -> ->; reflexivity.
Qed.

Lemma optimize_signed_comparison_cases_witness :
  optimize_signed_comparison fn_f1 (gcond GT_EXPR (int_name 3) (int_cst 0))
  = gcond GT_EXPR (int_name 1) (int_name 2)
  ∧ optimize_signed_comparison fn_f1 (gcond LE_EXPR (int_cst 0) (int_name 3))
    = gcond LE_EXPR (int_name 2) (int_name 1).
Proof.
  split.
  - apply (proj1 (optimize_signed_comparison_cases fn_f1 GT_EXPR
                    (int_name 3) (int_cst 0) (int_name 1) (int_name 2) eq_refl));
      reflexivity.
  - apply (proj2 (optimize_signed_comparison_cases fn_f1 LE_EXPR
                    (int_cst 0) (int_name 3) (int_name 1) (int_name 2) eq_refl));
      reflexivity.
Defined.

(** C4: a condition whose operator is not one of the four ordered
    comparisons (equality, inequality, or any other code) comes back from
    the rewriter as it went in, however its operands classify. *)
Theorem optimize_signed_comparison_other_codes (f : function) code lhs rhs :
  ordered_comparison code = false →
  optimize_signed_comparison f (gcond code lhs rhs) = gcond code lhs rhs.
Proof. intros Hord. by rewrite optimize_by_classification, Hord. Qed.

Lemma optimize_signed_comparison_other_codes_witness :
  optimize_signed_comparison fn_f1 (gcond EQ_EXPR (int_name 3) (int_cst 0))
  = gcond EQ_EXPR (int_name 3) (int_cst 0)
  ∧ optimize_signed_comparison fn_f1 (gcond NE_EXPR (int_cst 0) (int_name 3))
    = gcond NE_EXPR (int_cst 0) (int_name 3).
Proof.
  split.
  - apply (optimize_signed_comparison_other_codes fn_f1 EQ_EXPR). reflexivity.
  - apply (optimize_signed_comparison_other_codes fn_f1 NE_EXPR). reflexivity.
Defined.


(** ** The gate *)

(** C5: the gate answers true exactly when the pass is enabled and signed
    overflow is not defined to wrap around; so with wrap-around enabled the
    pass manager leaves every function body as it is. *)
Theorem gate_correct (opts : options) (f : function) :
  (gate opts f = true ↔ flag_tree_cmp opts ≠ 0%Z ∧ flag_wrapv opts = 0%Z)
  ∧ (∀ compute_dominators,
       flag_wrapv opts ≠ 0%Z →
       execute_one_pass compute_dominators opts f = f).
Proof.
  unfold execute_one_pass, gate. split.
  - rewrite andb_true_iff, negb_true_iff, !Z.eqb_eq, Z.eqb_neq. tauto.
  - intros D Hwrapv. apply Z.eqb_neq in Hwrapv. rewrite Hwrapv.
    by rewrite andb_false_r.
Qed.

Lemma gate_correct_witness :
  gate (mk_options 1 0) fn_f1 = true
  ∧ execute_one_pass (λ _, test_dominators) (mk_options 1 1) fn_f1 = fn_f1.
Proof.
  split.
  - apply (proj1 (gate_correct (mk_options 1 0) fn_f1)). by split.
  - by apply (proj2 (gate_correct (mk_options 1 1) fn_f1)).
Defined.

(** ** Soundness of the identity *)

Lemma wrap_representable (ty : tree_type) (z : Z) :
  representable ty z → wrap ty z = z.
Proof.
  unfold representable, min_value, max_value, wrap.
  destruct (TYPE_UNSIGNED ty); intros Hz.
  - apply Z.mod_small. lia.
  - destruct (Z.le_gt_cases (TYPE_PRECISION ty) 0) as [Hp|Hp].
    + assert (2 ^ (TYPE_PRECISION ty - 1) = 0)%Z as H0
        by (apply Z.pow_neg_r; lia).
      rewrite H0 in Hz. lia.
    + assert (2 ^ TYPE_PRECISION ty = 2 * 2 ^ (TYPE_PRECISION ty - 1))%Z as Hpow.
      { rewrite <- Z.pow_succ_r by lia. f_equal. lia. }
      rewrite Hpow, Z.mod_small by lia. lia.
Qed.

(** Comparing an exact difference with zero is comparing its operands. *)
Lemma comparison_of_difference (code : tree_code) (a b : Z) :
  ordered_comparison code = true →
  eval_comparison code (a - b) 0 = eval_comparison code a b
  ∧ eval_comparison code 0 (a - b) = eval_comparison code b a.
Proof.
  destruct code; try discriminate; intros _; simpl; split; f_equal.
  all: rewrite ?Z.gtb_ltb, ?Z.geb_leb.
  all: apply eq_true_iff_eq;
       rewrite ?Z.ltb_lt, ?Z.leb_le; lia.
Qed.

(** C1: when the subtraction [x - y] does not overflow its type, comparing
    its result with zero by <, <=, > or >= gives the truth value of
    comparing [x] with [y], and comparing zero with its result gives the
    truth value of comparing [y] with [x]; hence in every run in which no
    signed subtraction overflows, a condition takes the same branch after
    [optimize_signed_comparison] as before. *)
Theorem optimize_signed_comparison_sound :
  (∀ ty code x y,
     ordered_comparison code = true → representable ty (x - y) →
     eval_comparison code (eval_minus ty x y) 0 = eval_comparison code x y
     ∧ eval_comparison code 0 (eval_minus ty x y) = eval_comparison code y x)
  ∧ (∀ f ρ stmt,
       no_overflow_run f ρ →
       eval_cond ρ (optimize_signed_comparison f stmt) = eval_cond ρ stmt).
Proof.
  assert (∀ ty code x y,
     ordered_comparison code = true → representable ty (x - y) →
     eval_comparison code (eval_minus ty x y) 0 = eval_comparison code x y
     ∧ eval_comparison code 0 (eval_minus ty x y) = eval_comparison code y x)
    as Hidentity.
  { intros ty code x y Hord Hfit. unfold eval_minus.
    rewrite wrap_representable by done. by apply comparison_of_difference. }
  split; [exact Hidentity|].
  intros f ρ stmt Hrun.
  destruct stmt as [| | | |code lhs rhs| |]; try reflexivity.
  rewrite optimize_by_classification.
  destruct (ordered_comparison code) eqn:Hord; [|reflexivity].
  destruct (classify f lhs) as [|x y|] eqn:Hl;
    destruct (classify f rhs) as [|x' y'|] eqn:Hr; try reflexivity.
  - apply classify_Zero, integer_zerop_inv in Hl as [tyz ->].
    apply classify_Subtraction in Hr as (ty & v & d & -> & Hdef & Hx & Hy).
    destruct (Hrun _ _ _ _ _ Hdef Hx Hy) as (a & b & Ha & Hb & Hfit & Hv).
    cbn. rewrite Ha, Hb, Hv. cbn.
    symmetry. by apply Hidentity.
  - apply classify_Zero, integer_zerop_inv in Hr as [tyz ->].
    apply classify_Subtraction in Hl as (ty & v & d & -> & Hdef & Hx & Hy).
    destruct (Hrun _ _ _ _ _ Hdef Hx Hy) as (a & b & Ha & Hb & Hfit & Hv).
    cbn. rewrite Ha, Hb, Hv. cbn.
    symmetry. by apply Hidentity.
Qed.

(** The values of the source comment: with wrap-around, [llmax - llmin] is
    negative although [llmax] is not below [llmin]. *)
Example wrap_around_breaks_identity :
  let long_long := mk_type INTEGER_TYPE false 64 in
  let llmax := max_value long_long in
  let llmin := (- llmax - 1)%Z in
  eval_comparison LT_EXPR (eval_minus long_long llmax llmin) 0 = Some true
  ∧ eval_comparison LT_EXPR llmax llmin = Some false.
Proof. by vm_compute. Qed.

Lemma optimize_signed_comparison_sound_witness :
  (eval_comparison LT_EXPR (eval_minus integer_type_node 5 7) 0
   = eval_comparison LT_EXPR 5 7
   ∧ eval_comparison LT_EXPR 0 (eval_minus integer_type_node 5 7)
     = eval_comparison LT_EXPR 7 5)
  ∧ eval_cond run_f1 (optimize_signed_comparison fn_f1
                        (gcond LT_EXPR (int_name 3) (int_cst 0)))
    = eval_cond run_f1 (gcond LT_EXPR (int_name 3) (int_cst 0)).
Proof.
  split.
  - apply (proj1 optimize_signed_comparison_sound integer_type_node LT_EXPR 5 7)%Z.
    + reflexivity.
    + unfold representable. vm_compute. split; discriminate.
  - apply (proj2 optimize_signed_comparison_sound fn_f1 run_f1).
    intros ty version lhs x y Hdef _ _.
    unfold SSA_NAME_DEF_STMT, fn_f1 in Hdef. cbn [ssa_names] in Hdef.
    destruct (decide (version = 3)) as [->|Hne].
    + rewrite lookup_singleton_eq in Hdef. vm_compute in Hdef.
      injection Hdef as <- <- <-.
      exists 5%Z, 7%Z. repeat split; vm_compute; congruence.
    + rewrite lookup_singleton_ne in Hdef by done. discriminate Hdef.
Defined.

(** ** What a visit leaves alone *)

Lemma same_but_operands_refl (s : gimple) : same_but_operands s s.
Proof. destruct s; simpl; eauto. Qed.

Lemma same_but_operands_trans (s1 s2 s3 : gimple) :
  same_but_operands s1 s2 → same_but_operands s2 s3 → same_but_operands s1 s3.
Proof.
  destruct s1; simpl; try (by intros ->).
  by intros (l & r & ->).
Qed.

Lemma same_but_operands_sym (s s' : gimple) :
  same_but_operands s s' → same_but_operands s' s.
Proof.
  destruct s; simpl; try (intros ->; simpl; done).
  intros (l & r & ->). simpl. eauto.
Qed.

Lemma same_but_operands_code (s s' : gimple) :
  same_but_operands s s' → gimple_code s' = gimple_code s.
Proof. destruct s; simpl; try (by intros ->). by intros (l & r & ->). Qed.

Lemma same_but_operands_not_cond (s s' : gimple) :
  same_but_operands s s' → gimple_code s ≠ GIMPLE_COND → s' = s.
Proof. destruct s; simpl; intros H Hne; done. Qed.

#[local] Instance same_but_operands_preorder : PreOrder same_but_operands.
Proof.
  split.
  - intros s. apply same_but_operands_refl.
  - intros s1 s2 s3. apply same_but_operands_trans.
Qed.

#[local] Instance same_but_conds_bb_preorder : PreOrder same_but_conds_bb.
Proof.
  split.
  - intros b. by repeat split.
  - intros b1 b2 b3 (Hp1 & Hs1 & H1) (Hp2 & Hs2 & H2). repeat split.
    + congruence.
    + congruence.
    + by etrans.
Qed.

#[local] Instance same_but_conds_preorder : PreOrder same_but_conds.
Proof.
  split.
  - intros f. by split.
  - intros f1 f2 f3 (Hn1 & H1) (Hn2 & H2). split.
    + congruence.
    + by etrans.
Qed.

Lemma same_but_conds_lookup (f g : function) (r : gimple_ref) :
  same_but_conds f g →
  option_Forall2 same_but_operands (lookup_stmt f r) (lookup_stmt g r).
Proof.
  intros (_ & Hblocks). rewrite Forall2_lookup in Hblocks.
  destruct r as [bb i|bb i]; simpl.
  - destruct (Hblocks bb) as [b b' (Hphi & _ & _)|]; simpl; [|constructor].
    rewrite Hphi. destruct (phi_nodes b !! i); by constructor.
  - destruct (Hblocks bb) as [b b' (_ & _ & Hseq)|]; simpl; [|constructor].
    rewrite Forall2_lookup in Hseq. apply Hseq.
Qed.

Lemma same_but_conds_def_stmt (f g : function) (expr : tree) :
  same_but_conds f g →
  same_but_operands (SSA_NAME_DEF_STMT f expr) (SSA_NAME_DEF_STMT g expr).
Proof.
  intros Hfg. destruct expr; simpl; try done.
  destruct Hfg as (Hnames & Hblocks). rewrite Hnames.
  destruct (ssa_names f !! version) as [r|]; [|done].
  destruct (same_but_conds_lookup f g r (conj Hnames Hblocks)); simpl; done.
Qed.

(** The classifier reads the same out of two bodies that differ in the
    operands of conditions only: a condition defines no name. *)
Lemma prop_stable (f g : function) (expr : tree) :
  same_but_conds f g →
  prop_integer_zero_or_minus_expr g expr = prop_integer_zero_or_minus_expr f expr.
Proof.
  intros Hfg. unfold prop_integer_zero_or_minus_expr.
  pose proof (same_but_conds_def_stmt f g expr Hfg) as Hdef.
  destruct (SSA_NAME_DEF_STMT f expr) eqn:Hf; simpl in Hdef;
    try (by rewrite Hdef).
  destruct Hdef as (l & r & ->). done.
Qed.

Lemma optimize_stable (f g : function) (stmt : gimple) :
  same_but_conds f g →
  optimize_signed_comparison g stmt = optimize_signed_comparison f stmt.
Proof.
  intros Hfg. unfold optimize_signed_comparison.
  destruct stmt; try done. by rewrite !(prop_stable f g _ Hfg).
Qed.

Lemma optimize_same_but_operands (f : function) (stmt : gimple) :
  same_but_operands stmt (optimize_signed_comparison f stmt).
Proof.
  destruct stmt as [| | | |code lhs rhs| |]; try done.
  rewrite optimize_by_classification. simpl.
  destruct (ordered_comparison code); [|by eauto].
  destruct (classify f lhs); destruct (classify f rhs); eauto.
Qed.

(** ** Writing through a statement pointer *)

Lemma gsi_stmt_set_stmt_eq (f : function) bb i s :
  is_Some (gsi_stmt f bb i) → gsi_stmt (set_stmt f bb i s) bb i = Some s.
Proof.
  unfold gsi_stmt, set_stmt. simpl. rewrite list_lookup_alter_eq.
  destruct (basic_block_info f !! bb) as [b|]; simpl; [|by intros [? ?]].
  intros Hsome. apply list_lookup_insert_eq. by apply lookup_lt_is_Some.
Qed.

Lemma gsi_stmt_set_stmt_ne (f : function) bb i s bb' i' :
  (bb, i) ≠ (bb', i') →
  gsi_stmt (set_stmt f bb i s) bb' i' = gsi_stmt f bb' i'.
Proof.
  intros Hne. unfold gsi_stmt, set_stmt. simpl.
  destruct (decide (bb = bb')) as [<-|Hbb].
  - rewrite list_lookup_alter_eq.
    destruct (basic_block_info f !! bb) as [b|]; simpl; [|done].
    apply list_lookup_insert_ne. congruence.
  - by rewrite list_lookup_alter_ne.
Qed.

Lemma set_stmt_commute (f : function) bb i s bb' i' s' :
  (bb, i) ≠ (bb', i') →
  set_stmt (set_stmt f bb i s) bb' i' s' = set_stmt (set_stmt f bb' i' s') bb i s.
Proof.
  intros Hne. unfold set_stmt. simpl. f_equal.
  destruct (decide (bb = bb')) as [<-|Hbb].
  - rewrite !list_alter_alter_eq. apply list_alter_ext; [|done].
    intros b _. unfold set_bb_seq. simpl. f_equal.
    apply list_insert_insert_ne. congruence.
  - by apply list_alter_alter_ne.
Qed.

Lemma set_stmt_twice (f : function) bb i s s' :
  set_stmt (set_stmt f bb i s) bb i s' = set_stmt f bb i s'.
Proof.
  unfold set_stmt. simpl. f_equal. rewrite list_alter_alter_eq.
  apply list_alter_ext; [|done].
  intros b _. unfold set_bb_seq. simpl. f_equal. apply list_insert_insert_eq.
Qed.

Lemma set_stmt_id (f : function) bb i s :
  gsi_stmt f bb i = Some s → set_stmt f bb i s = f.
Proof.
  unfold gsi_stmt, set_stmt. simpl. intros Hs. destruct f as [blocks names].
  simpl in *. f_equal. apply list_eq. intros j.
  rewrite list_lookup_alter. case_decide as Hj; [subst j|done].
  destruct (blocks !! bb) as [b|]; simpl in *; [|done].
  f_equal. destruct b as [phis stmts es]. unfold set_bb_seq. simpl in *.
  f_equal. by apply list_insert_id.
Qed.

Lemma set_stmt_same_but_conds (f : function) bb i s s' :
  gsi_stmt f bb i = Some s → same_but_operands s s' →
  same_but_conds f (set_stmt f bb i s').
Proof.
  intros Hs Hss'. split; [done|]. simpl.
  apply Forall2_alter_r; [reflexivity|].
  intros b b' Hb _ (Hphi & Hsuccs & Hseq). repeat split; simpl; try done.
  unfold gsi_stmt in Hs. simpl in Hs. rewrite Hb in Hs. simpl in Hs.
  apply Forall2_same_length_lookup. split.
  - rewrite length_insert. by apply Forall2_length in Hseq.
  - intros j x y Hx Hy. destruct (decide (i = j)) as [<-|Hij].
    + rewrite list_lookup_insert_eq in Hy.
      * injection Hy as <-. congruence.
      * apply Forall2_length in Hseq. rewrite <- Hseq.
        by apply lookup_lt_is_Some; eauto.
    + rewrite list_lookup_insert_ne in Hy by done.
      by apply (Forall2_lookup_lr _ _ _ j x y Hseq).
Qed.

(** ** Visits *)

Lemma visit_rewrite_at (f : function) (p : stmt_pos) :
  visit f p = rewrite_at (optimize_signed_comparison f) f p.
Proof. reflexivity. Qed.

Lemma rewrite_at_ext (F G : gimple → gimple) (f : function) (p : stmt_pos) :
  (∀ s, F s = G s) → rewrite_at F f p = rewrite_at G f p.
Proof. intros H. unfold rewrite_at. destruct (gsi_stmt _ _ _); by rewrite ?H. Qed.

Lemma rewrite_at_same_but_conds (F : gimple → gimple) (f : function) (p : stmt_pos) :
  (∀ s, same_but_operands s (F s)) → same_but_conds f (rewrite_at F f p).
Proof.
  intros HF. unfold rewrite_at.
  destruct (gsi_stmt f p.1 p.2) as [s|] eqn:Hs; [|reflexivity].
  case_bool_decide; [|reflexivity].
  by apply (set_stmt_same_but_conds _ _ _ s).
Qed.

Lemma gsi_stmt_rewrite_at_ne (F : gimple → gimple) (f : function) (p q : stmt_pos) :
  p ≠ q → gsi_stmt (rewrite_at F f p) q.1 q.2 = gsi_stmt f q.1 q.2.
Proof.
  intros Hpq. unfold rewrite_at.
  destruct (gsi_stmt f p.1 p.2) as [s|]; [|done].
  case_bool_decide; [|done].
  apply gsi_stmt_set_stmt_ne. by destruct p, q.
Qed.

Lemma rewrite_at_commute (F : gimple → gimple) (f : function) (p q : stmt_pos) :
  rewrite_at F (rewrite_at F f p) q = rewrite_at F (rewrite_at F f q) p.
Proof.
  destruct (decide (p = q)) as [->|Hpq]; [done|].
  unfold rewrite_at at 1 3.
  rewrite !gsi_stmt_rewrite_at_ne by done.
  unfold rewrite_at.
  destruct (gsi_stmt f p.1 p.2) as [s|], (gsi_stmt f q.1 q.2) as [s'|];
    repeat case_bool_decide; try done.
  apply set_stmt_commute. by destruct p, q.
Qed.

Lemma rewrite_at_idempotent (F : gimple → gimple) (f : function) (p : stmt_pos) :
  (∀ s, F (F s) = F s) →
  rewrite_at F (rewrite_at F f p) p = rewrite_at F f p.
Proof.
  intros HF. destruct p as [bb i]. unfold rewrite_at at 2. simpl.
  destruct (gsi_stmt f bb i) as [s|] eqn:Hs.
  - case_bool_decide as Hc.
    + unfold rewrite_at. simpl. rewrite gsi_stmt_set_stmt_eq by eauto.
      rewrite Hs, (bool_decide_eq_true_2 _ Hc).
      case_bool_decide; [|done]. by rewrite HF, set_stmt_twice.
    + unfold rewrite_at. simpl. rewrite Hs. by rewrite bool_decide_eq_false_2.
  - unfold rewrite_at. simpl. by rewrite Hs.
Qed.

(** ** Traversals with the rewriter held fixed *)

Lemma foldl_rewrite_at_same_but_conds (F : gimple → gimple) (g : function)
    (ps : list stmt_pos) :
  (∀ s, same_but_operands s (F s)) →
  same_but_conds g (foldl (rewrite_at F) g ps).
Proof.
  intros HF. induction ps as [|p ps IH] in g |- *; simpl; [reflexivity|].
  etrans; [|apply IH]. by apply rewrite_at_same_but_conds.
Qed.

(** Along a traversal the rewriter always answers as it does on the body
    the traversal started from. *)
Lemma traverse_fixed_rewriter (f g : function) (ps : list stmt_pos) :
  same_but_conds f g →
  traverse ps g = foldl (rewrite_at (optimize_signed_comparison f)) g ps.
Proof.
  unfold traverse. induction ps as [|p ps IH] in g |- *; intros Hfg; simpl; [done|].
  rewrite visit_rewrite_at.
  rewrite (rewrite_at_ext _ (optimize_signed_comparison f))
    by (intros s; by apply optimize_stable).
  apply IH. etrans; [exact Hfg|].
  apply rewrite_at_same_but_conds, optimize_same_but_operands.
Qed.

Lemma traverse_same_but_conds (f : function) (ps : list stmt_pos) :
  same_but_conds f (traverse ps f).
Proof.
  rewrite (traverse_fixed_rewriter f f) by reflexivity.
  apply foldl_rewrite_at_same_but_conds, optimize_same_but_operands.
Qed.

Lemma foldl_rewrite_at_permutation (F : gimple → gimple) (g : function)
    (ps qs : list stmt_pos) :
  ps ≡ₚ qs → foldl (rewrite_at F) g ps = foldl (rewrite_at F) g qs.
Proof.
  intros Hperm. induction Hperm as [|p ps qs _ IH|p q ps|ps qs rs _ IH1 _ IH2]
    in g |- *; simpl.
  - done.
  - apply IH.
  - by rewrite rewrite_at_commute.
  - by rewrite IH1.
Qed.

Lemma foldl_rewrite_at_swap (F : gimple → gimple) (g : function)
    (ps : list stmt_pos) (p : stmt_pos) :
  rewrite_at F (foldl (rewrite_at F) g ps) p
  = foldl (rewrite_at F) (rewrite_at F g p) ps.
Proof.
  induction ps as [|q ps IH] in g |- *; simpl; [done|].
  by rewrite IH, rewrite_at_commute.
Qed.

Lemma foldl_rewrite_at_twice (F : gimple → gimple) (g : function)
    (ps : list stmt_pos) :
  (∀ s, F (F s) = F s) →
  foldl (rewrite_at F) (foldl (rewrite_at F) g ps) ps = foldl (rewrite_at F) g ps.
Proof.
  intros HF. induction ps as [|p ps IH] in g |- *; simpl; [done|].
  rewrite foldl_rewrite_at_swap, rewrite_at_idempotent by done. apply IH.
Qed.

Lemma cond_at_same_but_conds (f g : function) (p : stmt_pos) :
  same_but_conds f g → cond_at f p ↔ cond_at g p.
Proof.
  intros Hfg. unfold cond_at, gsi_stmt.
  destruct (same_but_conds_lookup f g (in_bb_seq p.1 p.2) Hfg) as [s s' Hs|];
    [|done].
  by rewrite (same_but_operands_code s s' Hs).
Qed.

Lemma rewrite_at_not_cond (F : gimple → gimple) (g : function) (p : stmt_pos) :
  ¬ cond_at g p → rewrite_at F g p = g.
Proof.
  unfold cond_at, rewrite_at. destruct (gsi_stmt g p.1 p.2); [|done].
  intros Hno. by rewrite bool_decide_eq_false_2.
Qed.

(** Places without a condition can be left out of a traversal. *)
Lemma foldl_rewrite_at_filter (F : gimple → gimple) (f g : function)
    (ps : list stmt_pos) :
  (∀ s, same_but_operands s (F s)) → same_but_conds f g →
  foldl (rewrite_at F) g ps = foldl (rewrite_at F) g (filter (cond_at f) ps).
Proof.
  intros HF. induction ps as [|p ps IH] in g |- *; intros Hfg; [done|].
  rewrite filter_cons. case_decide as Hp; simpl.
  - apply IH. etrans; [exact Hfg|]. by apply rewrite_at_same_but_conds.
  - rewrite rewrite_at_not_cond; [by apply IH|].
    by rewrite <- (cond_at_same_but_conds f g).
Qed.

(** ** The walk as a traversal *)

Lemma first_non_label_same (seq seq' : list gimple) :
  Forall2 same_but_operands seq seq' → first_non_label seq' = first_non_label seq.
Proof.
  induction 1 as [|s s' seq seq' Hs _ IH]; [done|].
  destruct s; simpl in Hs; try (by subst s').
  - subst s'. simpl. by rewrite IH.
  - by destruct Hs as (l & r & ->).
Qed.

Lemma first_non_label_le (seq : list gimple) (i : nat) (s : gimple) :
  seq !! i = Some s → gimple_code s ≠ GIMPLE_LABEL → first_non_label seq ≤ i.
Proof.
  induction seq as [|s0 seq IH] in i |- *; [done|].
  destruct i as [|i]; simpl.
  - intros [= ->] Hs. destruct s; simpl in *; done || lia.
  - intros Hi Hs. destruct s0; try lia. apply le_n_S. by apply IH.
Qed.

Lemma gsi_positions_same (b b' : basic_block) :
  same_but_conds_bb b b' → gsi_positions b' = gsi_positions b.
Proof.
  intros (_ & _ & Hseq). unfold gsi_positions, gsi_after_labels.
  by rewrite (first_non_label_same _ _ Hseq), <- (Forall2_length _ _ _ Hseq).
Qed.

Lemma block_positions_same (f g : function) (bb : nat) :
  same_but_conds f g → block_positions g bb = block_positions f bb.
Proof.
  intros (_ & Hblocks). unfold block_positions.
  rewrite Forall2_lookup in Hblocks.
  destruct (Hblocks bb) as [b b' Hb|]; [|done].
  by rewrite (gsi_positions_same b b' Hb).
Qed.

Lemma walk_positions_same (t : dom_tree) (f g : function) :
  same_but_conds f g → walk_positions t g = walk_positions t f.
Proof.
  intros Hfg. unfold walk_positions.
  induction (walk_order t) as [|bb bbs IH]; [done|].
  by rewrite !bind_cons, IH, (block_positions_same f g bb Hfg).
Qed.

Lemma cfg_edges_same (f g : function) :
  same_but_conds f g → cfg_edges g = cfg_edges f.
Proof.
  intros (_ & Hblocks). unfold cfg_edges.
  induction Hblocks as [|b b' bs bs' (_ & Hsuccs & _) _ IH]; [done|].
  by rewrite !fmap_cons, Hsuccs, IH.
Qed.

Lemma after_dom_children_traverse (f : function) (bb : nat) :
  after_dom_children f bb = traverse (block_positions f bb) f.
Proof.
  unfold after_dom_children, block_positions, traverse.
  destruct (basic_block_info f !! bb) as [b|]; [|done].
  by rewrite foldl_fmap.
Qed.

Lemma walk_by_order (t : dom_tree) (f : function) :
  walk t f = foldl after_dom_children f (walk_order t).
Proof.
  revert t f. fix IH 1. intros [bb sons] f. simpl.
  rewrite foldl_app. simpl. f_equal.
  induction sons as [|s sons IHsons] in f |- *; [done|].
  rewrite bind_cons, foldl_app. simpl. rewrite <- IH. apply IHsons.
Qed.

Lemma traverse_app (ps qs : list stmt_pos) (f : function) :
  traverse (ps ++ qs) f = traverse qs (traverse ps f).
Proof. apply foldl_app. Qed.

Lemma foldl_after_dom_children_traverse (f g : function) (bbs : list nat) :
  same_but_conds f g →
  foldl after_dom_children g bbs = traverse (bbs ≫= block_positions f) g.
Proof.
  induction bbs as [|bb bbs IH] in g |- *; intros Hfg; [done|].
  rewrite bind_cons, traverse_app. simpl.
  rewrite after_dom_children_traverse, (block_positions_same f g bb Hfg).
  apply IH. etrans; [exact Hfg|]. apply traverse_same_but_conds.
Qed.

(** The pass is the traversal of the places of the walk. *)
Lemma walk_traverse (t : dom_tree) (f : function) :
  walk t f = traverse (walk_positions t f) f.
Proof.
  rewrite walk_by_order. by apply foldl_after_dom_children_traverse.
Qed.

Lemma execute_same_but_conds compute_dominators (f : function) :
  same_but_conds f (execute compute_dominators f).
Proof. unfold execute. rewrite walk_traverse. apply traverse_same_but_conds. Qed.

Lemma same_but_conds_lookup_other (f g : function) (r : gimple_ref) (s : gimple) :
  same_but_conds f g → lookup_stmt f r = Some s →
  gimple_code s ≠ GIMPLE_COND → lookup_stmt g r = Some s.
Proof.
  intros Hfg Hs Hcode.
  destruct (same_but_conds_lookup f g r Hfg) as [s0 s' Hss'|]; [|done].
  injection Hs as ->. f_equal. by apply same_but_operands_not_cond.
Qed.

Lemma defines_not_cond (s : gimple) (v : nat) :
  defines s v → gimple_code s ≠ GIMPLE_COND.
Proof. intros [ty Hlhs]. by destruct s. Qed.

Lemma ssa_form_same_but_conds (f g : function) :
  same_but_conds f g → ssa_form f → ssa_form g.
Proof.
  intros Hfg (Htable & Hunique). pose proof Hfg as (Hnames & _). split.
  - intros v r Hv. rewrite Hnames in Hv.
    destruct (Htable v r Hv) as (s & Hs & Hdef). exists s. split; [|done].
    apply (same_but_conds_lookup_other f g r s Hfg Hs).
    by apply (defines_not_cond s v).
  - intros r s v Hs Hdef. rewrite Hnames. apply (Hunique r s v); [|done].
    destruct (same_but_conds_lookup f g r Hfg) as [s0 s' Hss'|]; [|done].
    injection Hs as ->. f_equal.
    apply same_but_operands_not_cond; [by apply same_but_operands_sym|].
    by apply (defines_not_cond s v).
Qed.

(** ** Frame of the pass *)

(** C8: the pass changes nothing but the operand pairs of conditions.  The
    body it leaves has the same blocks, PHI nodes and table of SSA names,
    and statement by statement differs from the one it was given at most in
    the operands of a GIMPLE_COND; every other statement, the subtraction
    whose operands were propagated included, is where it was and as it was;
    a visit in which the rewriter hands the condition back has no effect on
    the body at all, so classifying alone mutates nothing; the edges of the
    control-flow graph are the same; and a body in SSA form stays so. *)
Theorem execute_frame compute_dominators (f : function) :
  same_but_conds f (execute compute_dominators f)
  ∧ (∀ r s, lookup_stmt f r = Some s → gimple_code s ≠ GIMPLE_COND →
            lookup_stmt (execute compute_dominators f) r = Some s)
  ∧ (∀ bb i stmt, gsi_stmt f bb i = Some stmt →
                  optimize_signed_comparison f stmt = stmt →
                  visit_stmt bb f i = f)
  ∧ cfg_edges (execute compute_dominators f) = cfg_edges f
  ∧ (ssa_form f → ssa_form (execute compute_dominators f)).
Proof.
  pose proof (execute_same_but_conds compute_dominators f) as Hframe.
  split; [exact Hframe|]. split; [|split; [|split]].
  - intros r s. by apply same_but_conds_lookup_other.
  - intros bb i stmt Hstmt Hsame. unfold visit_stmt. rewrite Hstmt, Hsame.
    case_bool_decide; [|done]. by apply set_stmt_id.
  - by apply cfg_edges_same.
  - by apply ssa_form_same_but_conds.
Qed.

Lemma ssa_form_f1 : ssa_form fn_f1.
Proof.
  split.
  - intros v r Hv. unfold fn_f1 in Hv. cbn [ssa_names] in Hv.
    apply lookup_singleton_Some in Hv as [<- <-].
    eexists. split; [reflexivity|]. by exists integer_type_node.
  - intros r s v Hs [ty Hdef].
    destruct r as [bb i|bb i];
      do 7 (try destruct bb as [|bb]); simpl in Hs; try discriminate Hs;
      do 2 (try destruct i as [|i]); simpl in Hs; try discriminate Hs;
      injection Hs as <-; try discriminate Hdef.
    by injection Hdef as <- <-.
Qed.

Lemma execute_frame_witness :
  lookup_stmt (execute (λ _, test_dominators) fn_f1) (in_bb_seq 2 0)
  = Some (gassign (int_name 3) MINUS_EXPR (int_name 1) (Some (int_name 2)))
  ∧ visit_stmt 4 fn_f3 0 = fn_f3
  ∧ ssa_form (execute (λ _, test_dominators) fn_f1).
Proof.
  split; [|split].
  - apply (proj1 (proj2 (execute_frame (λ _, test_dominators) fn_f1))).
    + reflexivity.
    + discriminate.
  - apply (proj1 (proj2 (proj2 (execute_frame (λ _, test_dominators) fn_f3)))
             4 0 (gcond LT_EXPR (int_name 1) (int_name 2))); reflexivity.
  - apply (proj2 (proj2 (proj2 (proj2
             (execute_frame (λ _, test_dominators) fn_f1))))).
    exact ssa_form_f1.
Defined.

(** ** Independence of the visiting order *)

Lemma elem_of_block_positions (f : function) (bb : nat) (p : stmt_pos) :
  p ∈ block_positions f bb ↔
  p.1 = bb ∧ ∃ b, basic_block_info f !! bb = Some b ∧ p.2 ∈ gsi_positions b.
Proof.
  unfold block_positions. destruct (basic_block_info f !! bb) as [b|].
  - rewrite list_elem_of_fmap. split.
    + intros (i & -> & Hi). eauto.
    + intros (<- & b' & [= <-] & Hi). exists p.2. by destruct p.
  - split; [by intros ?%elem_of_nil|]. by intros (_ & b & ? & _).
Qed.

Lemma NoDup_block_positions (f : function) (bb : nat) :
  NoDup (block_positions f bb).
Proof.
  unfold block_positions. destruct (basic_block_info f !! bb) as [b|].
  - apply NoDup_fmap_2; [by intros i j [= ->]|]. apply NoDup_seq.
  - constructor.
Qed.

Lemma NoDup_walk_positions (t : dom_tree) (f : function) :
  NoDup (walk_order t) → NoDup (walk_positions t f).
Proof.
  intros Hnodup. apply NoDup_bind; [| |done].
  - intros bb1 bb2 p _ _ [<- _]%elem_of_block_positions
      [<- _]%elem_of_block_positions. done.
  - intros bb _. apply NoDup_block_positions.
Qed.

(** A walk that reaches every block goes through every condition. *)
Lemma cond_at_walk_positions (t : dom_tree) (f : function) (p : stmt_pos) :
  walk_order t ≡ₚ seq 0 (length (basic_block_info f)) →
  cond_at f p → p ∈ walk_positions t f.
Proof.
  intros Hcover Hcond. unfold cond_at, gsi_stmt, lookup_stmt in Hcond.
  destruct (basic_block_info f !! p.1) as [b|] eqn:Hb; simpl in Hcond; [|done].
  destruct (bb_seq b !! p.2) as [s|] eqn:Hs; [|done].
  apply list_elem_of_bind. exists p.1. split.
  - apply elem_of_block_positions. split; [done|]. exists b. split; [done|].
    unfold gsi_positions, gsi_after_labels. apply elem_of_seq.
    pose proof (first_non_label_le (bb_seq b) p.2 s Hs) as Hle.
    apply lookup_lt_Some in Hs.
    assert (gimple_code s ≠ GIMPLE_LABEL) as Hlabel by congruence.
    specialize (Hle Hlabel). lia.
  - rewrite Hcover. apply elem_of_seq. apply lookup_lt_Some in Hb. lia.
Qed.

(** C9: the outcome of the pass does not depend on the order of the
    visits.  Any traversal that visits the conditions the dominator walk
    visits, as often as the walk does and in whatever order, leaves the body
    the pass leaves; and when the walk reaches every block once, so does
    any traversal that visits every condition of the function exactly
    once. *)
Theorem traversal_order_independent compute_dominators (f : function) :
  (∀ order,
     order ≡ₚ filter (cond_at f)
                (walk_positions (calculate_dominance_info compute_dominators f) f) →
     traverse order f = execute compute_dominators f)
  ∧ (walk_order (calculate_dominance_info compute_dominators f)
       ≡ₚ seq 0 (length (basic_block_info f)) →
     ∀ order,
       NoDup order → (∀ p, p ∈ order ↔ cond_at f p) →
       traverse order f = execute compute_dominators f).
Proof.
  unfold execute.
  set (t := calculate_dominance_info compute_dominators f).
  assert (∀ order, order ≡ₚ filter (cond_at f) (walk_positions t f) →
                   traverse order f = walk t f) as Hperm.
  { intros order Horder. rewrite walk_traverse.
    rewrite !(traverse_fixed_rewriter f f) by reflexivity.
    rewrite (foldl_rewrite_at_filter _ f f (walk_positions t f))
      by (apply optimize_same_but_operands || reflexivity).
    by apply foldl_rewrite_at_permutation. }
  split; [exact Hperm|].
  intros Hcover order Hnodup Hall. apply Hperm, NoDup_Permutation.
  - done.
  - apply NoDup_filter, NoDup_walk_positions. rewrite Hcover. apply NoDup_seq.
  - intros p. rewrite list_elem_of_filter, Hall. split; [|tauto].
    intros Hcond. split; [done|]. by apply cond_at_walk_positions.
Qed.

Lemma traversal_order_independent_witness :
  traverse [(2, 1); (4, 0)] fn_f1 = execute (λ _, test_dominators) fn_f1
  ∧ traverse [(4, 0); (2, 1)] fn_f1 = execute (λ _, test_dominators) fn_f1.
Proof.
  split.
  - apply (proj1 (traversal_order_independent (λ _, test_dominators) fn_f1)).
    vm_compute. apply perm_swap.
  - apply (proj2 (traversal_order_independent (λ _, test_dominators) fn_f1)).
    + vm_compute. apply NoDup_Permutation.
      * apply NoDup_ListNoDup. repeat constructor; simpl; lia.
      * apply NoDup_ListNoDup. repeat constructor; simpl; lia.
      * intros bb. rewrite !list_elem_of_In. simpl. lia.
    + apply NoDup_ListNoDup. repeat constructor; simpl; intuition congruence.
    + intros [bb i]. rewrite list_elem_of_In. simpl. split.
      * intros [[= <- <-]|[[= <- <-]|[]]]; reflexivity.
      * unfold cond_at, gsi_stmt. simpl.
        do 7 (try destruct bb as [|bb]); simpl; try done;
          do 2 (try destruct i as [|i]); simpl; try done; auto.
Defined.

(** ** Running the pass twice *)

Lemma optimize_idempotent (f : function) (stmt : gimple) :
  no_chained_subtraction f →
  optimize_signed_comparison f (optimize_signed_comparison f stmt)
  = optimize_signed_comparison f stmt.
Proof.
  intros Hnc. destruct stmt as [| | | |code lhs rhs| |]; try done.
  rewrite (optimize_by_classification f code lhs rhs).
  destruct (ordered_comparison code) eqn:Hord.
  2:{ by rewrite optimize_by_classification, Hord. }
  destruct (classify f lhs) as [|x y|] eqn:Hl;
    destruct (classify f rhs) as [|x' y'|] eqn:Hr;
    try (by rewrite optimize_by_classification, Hord, Hl, ?Hr).
  - apply classify_Subtraction in Hr as (ty & v & d & -> & Hdef & Hx & Hy).
    destruct (Hnc _ _ _ _ _ Hdef Hx Hy) as [H1 H2].
    rewrite optimize_by_classification, Hord.
    destruct (classify f y') as [|a b|] eqn:Hcy;
      destruct (classify f x') as [|a' b'|] eqn:Hcx; try done.
    + destruct H1. by exists a', b'.
    + destruct H2. by exists a, b.
  - apply classify_Subtraction in Hl as (ty & v & d & -> & Hdef & Hx & Hy).
    destruct (Hnc _ _ _ _ _ Hdef Hx Hy) as [H1 H2].
    rewrite optimize_by_classification, Hord.
    destruct (classify f x) as [|a b|] eqn:Hcx;
      destruct (classify f y) as [|a' b'|] eqn:Hcy; try done.
    + destruct H2. by exists a', b'.
    + destruct H1. by exists a, b.
Qed.

(** C6, as the code has it: in a body without chained subtractions (no
    signed subtraction that defines a name pairs the integer zero with a
    name that is itself a signed subtraction), running the pass twice
    leaves the body one run leaves, and the rewriter is a no-op on a
    condition it has already rewritten. *)
Theorem execute_twice compute_dominators (f : function) :
  no_chained_subtraction f →
  execute compute_dominators (execute compute_dominators f)
  = execute compute_dominators f
  ∧ (∀ stmt,
       optimize_signed_comparison f (optimize_signed_comparison f stmt)
       = optimize_signed_comparison f stmt).
Proof.
  intros Hnc. split; [|intros stmt; by apply optimize_idempotent].
  pose proof (execute_same_but_conds compute_dominators f) as Hframe.
  unfold execute at 1. unfold calculate_dominance_info.
  rewrite (cfg_edges_same _ _ Hframe), walk_traverse.
  rewrite (walk_positions_same _ _ _ Hframe).
  rewrite (traverse_fixed_rewriter f _ _ Hframe).
  unfold execute, calculate_dominance_info.
  rewrite walk_traverse, (traverse_fixed_rewriter f f) by reflexivity.
  apply foldl_rewrite_at_twice. intros s. by apply optimize_idempotent.
Qed.

Lemma no_chained_subtraction_f1 : no_chained_subtraction fn_f1.
Proof.
  intros ty version lhs x y Hdef _ _.
  unfold SSA_NAME_DEF_STMT, fn_f1 in Hdef. cbn [ssa_names] in Hdef.
  destruct (decide (version = 3)) as [->|Hne].
  - rewrite lookup_singleton_eq in Hdef. vm_compute in Hdef.
    injection Hdef as <- <- <-.
    split; intros (a & b & Hcx & Hcy); vm_compute in Hcy; discriminate Hcy.
  - rewrite lookup_singleton_ne in Hdef by done. discriminate Hdef.
Qed.

Lemma execute_twice_witness :
  execute (λ _, test_dominators) (execute (λ _, test_dominators) fn_f1)
  = execute (λ _, test_dominators) fn_f1
  ∧ optimize_signed_comparison fn_f1
      (optimize_signed_comparison fn_f1 (gcond GT_EXPR (int_name 3) (int_cst 0)))
    = optimize_signed_comparison fn_f1 (gcond GT_EXPR (int_name 3) (int_cst 0)).
Proof.
  pose proof (execute_twice (λ _, test_dominators) fn_f1 no_chained_subtraction_f1)
    as [Hpass Hstmt].
  split; [exact Hpass|apply Hstmt].
Defined.

(** C6, as stated, fails when a propagated operand is itself a difference
    compared with zero.  In [x = a - b; d = x - 0; if (d > 0)] the first run
    leaves [if (x > 0)], and the rewriter applied to that rewritten
    condition, like a second run of the pass, turns it into [if (a > b)]. *)
Lemma execute_twice_chain :
  optimize_signed_comparison fn_chain (gcond GT_EXPR (int_name 4) (int_cst 0))
  = gcond GT_EXPR (int_name 3) (int_cst 0)
  ∧ optimize_signed_comparison fn_chain (gcond GT_EXPR (int_name 3) (int_cst 0))
    = gcond GT_EXPR (int_name 1) (int_name 2)
  ∧ gsi_stmt (execute (λ _, test_dominators) fn_chain) 2 2
    = Some (gcond GT_EXPR (int_name 3) (int_cst 0))
  ∧ gsi_stmt (execute (λ _, test_dominators)
                (execute (λ _, test_dominators) fn_chain)) 2 2
    = Some (gcond GT_EXPR (int_name 1) (int_name 2))
  ∧ execute (λ _, test_dominators) (execute (λ _, test_dominators) fn_chain)
    ≠ execute (λ _, test_dominators) fn_chain.
Proof.
  split_and!; [by vm_compute..|].
  intros Heq. apply (f_equal (λ g, gsi_stmt g 2 2)) in Heq.
  vm_compute in Heq. discriminate Heq.
Qed.

(** * Further properties of the pass *)

(** ** The statements a traversal leaves *)

Lemma optimize_not_cond (f : function) (s : gimple) :
  gimple_code s ≠ GIMPLE_COND → optimize_signed_comparison f s = s.
Proof. by destruct s. Qed.

Lemma gsi_stmt_rewrite_at_eq (F : gimple → gimple) (g : function) (p : stmt_pos) :
  (∀ s, gimple_code s ≠ GIMPLE_COND → F s = s) →
  gsi_stmt (rewrite_at F g p) p.1 p.2 = F <$> gsi_stmt g p.1 p.2.
Proof.
  intros HF. unfold rewrite_at.
  destruct (gsi_stmt g p.1 p.2) as [s|] eqn:Hs; [|by rewrite Hs].
  case_bool_decide as Hc.
  - by rewrite gsi_stmt_set_stmt_eq by eauto.
  - rewrite Hs. simpl. by rewrite HF.
Qed.

Lemma foldl_rewrite_at_lookup (F : gimple → gimple) (g : function)
    (ps : list stmt_pos) (q : stmt_pos) :
  (∀ s, gimple_code s ≠ GIMPLE_COND → F s = s) → NoDup ps →
  gsi_stmt (foldl (rewrite_at F) g ps) q.1 q.2
  = if decide (q ∈ ps) then F <$> gsi_stmt g q.1 q.2 else gsi_stmt g q.1 q.2.
Proof.
  intros HF Hnodup.
  induction Hnodup as [|p ps Hp _ IH] in g |- *; simpl.
  { destruct (decide (q ∈ [])) as [Hin|]; [|done]. by apply elem_of_nil in Hin. }
  rewrite IH.
  destruct (decide (q ∈ ps)) as [Hin|Hnin];
    destruct (decide (q ∈ p :: ps)) as [Hin'|Hnin'].
  - rewrite gsi_stmt_rewrite_at_ne; [done|]. by intros ->.
  - destruct Hnin'. by right.
  - apply elem_of_cons in Hin' as [->|Hin']; [|done].
    by apply gsi_stmt_rewrite_at_eq.
  - apply gsi_stmt_rewrite_at_ne. intros ->. destruct Hnin'. by left.
Qed.

Lemma rewrite_at_other_block (F : gimple → gimple) (g : function)
    (p : stmt_pos) (bb : nat) :
  p.1 ≠ bb →
  basic_block_info (rewrite_at F g p) !! bb = basic_block_info g !! bb.
Proof.
  intros Hne. unfold rewrite_at. destruct (gsi_stmt g p.1 p.2); [|done].
  case_bool_decide; [|done]. simpl. by apply list_lookup_alter_ne.
Qed.

Lemma foldl_rewrite_at_other_block (F : gimple → gimple) (g : function)
    (ps : list stmt_pos) (bb : nat) :
  (∀ p, p ∈ ps → p.1 ≠ bb) →
  basic_block_info (foldl (rewrite_at F) g ps) !! bb = basic_block_info g !! bb.
Proof.
  induction ps as [|p ps IH] in g |- *; intros Hps; simpl; [done|].
  rewrite IH.
  - apply rewrite_at_other_block, Hps. by left.
  - intros q Hq. apply Hps. by right.
Qed.

Lemma first_non_label_label (seq : list gimple) (i : nat) :
  i < first_non_label seq → ∃ label, seq !! i = Some (glabel label).
Proof.
  induction seq as [|s seq IH] in i |- *; simpl; [lia|].
  destruct s; try lia. destruct i as [|i]; simpl.
  - eauto.
  - intros Hi. apply IH. lia.
Qed.

(** A place of a block the loop does not go through holds no condition:
    it is past the end of the block or it holds one of the leading labels. *)
Lemma outside_block_positions (f : function) (bb i : nat) (s : gimple) :
  (bb, i) ∉ block_positions f bb → gsi_stmt f bb i = Some s →
  gimple_code s ≠ GIMPLE_COND.
Proof.
  intros Hout Hs. unfold gsi_stmt, lookup_stmt in Hs.
  destruct (basic_block_info f !! bb) as [b|] eqn:Hb; simpl in Hs; [|done].
  destruct (decide (i < first_non_label (bb_seq b))) as [Hi|Hi].
  - destruct (first_non_label_label _ _ Hi) as [label Hlabel].
    rewrite Hlabel in Hs. by injection Hs as <-.
  - destruct Hout. apply elem_of_block_positions. split; [done|].
    exists b. split; [done|]. unfold gsi_positions, gsi_after_labels.
    apply elem_of_seq. apply lookup_lt_Some in Hs. simpl. lia.
Qed.

Lemma optimize_fmap_outside (f : function) (bb i : nat) :
  (bb, i) ∉ block_positions f bb →
  gsi_stmt f bb i = optimize_signed_comparison f <$> gsi_stmt f bb i.
Proof.
  intros Hout. destruct (gsi_stmt f bb i) as [s|] eqn:Hs; [|done].
  simpl. f_equal. symmetry. apply optimize_not_cond.
  by apply (outside_block_positions f bb i).
Qed.

(** X1: what [after_dom_children] does to a block.  Every statement of the
    block it is called on is replaced by what the rewriter makes of it,
    the rewriter reading the body as it was when the call started (labels
    and other statements come back as they are, no condition is skipped);
    every other block is left exactly as it was. *)
Theorem after_dom_children_block (f : function) (bb : nat) :
  (∀ i, gsi_stmt (after_dom_children f bb) bb i
        = optimize_signed_comparison f <$> gsi_stmt f bb i)
  ∧ (∀ bb', bb' ≠ bb →
            basic_block_info (after_dom_children f bb) !! bb'
            = basic_block_info f !! bb').
Proof.
  rewrite after_dom_children_traverse.
  rewrite (traverse_fixed_rewriter f f) by reflexivity. split.
  - intros i.
    rewrite (foldl_rewrite_at_lookup _ f _ (bb, i)).
    + case_decide as Hin; [done|]. simpl. by apply optimize_fmap_outside.
    + intros s. apply optimize_not_cond.
    + apply NoDup_block_positions.
  - intros bb' Hne. apply foldl_rewrite_at_other_block.
    intros p [Hp _]%elem_of_block_positions. congruence.
Qed.

Lemma after_dom_children_block_witness :
  gsi_stmt (after_dom_children fn_f1 2) 2 1
  = optimize_signed_comparison fn_f1 <$> gsi_stmt fn_f1 2 1
  ∧ basic_block_info (after_dom_children fn_f1 2) !! 4
    = basic_block_info fn_f1 !! 4.
Proof.
  split.
  - apply (proj1 (after_dom_children_block fn_f1 2)).
  - apply (proj2 (after_dom_children_block fn_f1 2)). lia.
Defined.

(** ** The body the pass leaves *)

Lemma execute_fixed_rewriter compute_dominators (f : function) :
  execute compute_dominators f
  = foldl (rewrite_at (optimize_signed_comparison f)) f
      (walk_positions (calculate_dominance_info compute_dominators f) f).
Proof.
  unfold execute. rewrite walk_traverse.
  by rewrite (traverse_fixed_rewriter f f) by reflexivity.
Qed.

Lemma elem_of_walk_positions (t : dom_tree) (f : function) (p : stmt_pos) :
  p ∈ walk_positions t f ↔ p.1 ∈ walk_order t ∧ p ∈ block_positions f p.1.
Proof.
  unfold walk_positions. rewrite list_elem_of_bind. split.
  - intros (bb & Hp & Hbb).
    pose proof (proj1 (elem_of_block_positions f bb p) Hp) as [<- _]. done.
  - intros [Hbb Hp]. by exists p.1.
Qed.

(** X2: the pass as a map.  When the walk reaches no block twice, every
    statement of a block the walk reaches is, after the pass, what the
    rewriter makes of the statement that stood there before, with all
    operands classified against the body the pass was given; statements of
    the other blocks are the ones that stood there before. *)
Theorem execute_pointwise compute_dominators (f : function) (bb i : nat) :
  NoDup (walk_order (calculate_dominance_info compute_dominators f)) →
  gsi_stmt (execute compute_dominators f) bb i
  = if decide (bb ∈ walk_order (calculate_dominance_info compute_dominators f))
    then optimize_signed_comparison f <$> gsi_stmt f bb i
    else gsi_stmt f bb i.
Proof.
  intros Hnodup. rewrite execute_fixed_rewriter.
  set (t := calculate_dominance_info compute_dominators f) in *.
  rewrite (foldl_rewrite_at_lookup _ f _ (bb, i)).
  - simpl. case_decide as Hin; case_decide as Hbb; try done.
    + destruct Hbb. by apply elem_of_walk_positions in Hin as [Hbb _].
    + apply optimize_fmap_outside.
      intros Hin'. destruct Hin. by apply elem_of_walk_positions.
  - intros s. apply optimize_not_cond.
  - by apply NoDup_walk_positions.
Qed.

Lemma execute_pointwise_witness :
  gsi_stmt (execute (λ _, test_dominators) fn_f1) 4 0
  = optimize_signed_comparison fn_f1 <$> gsi_stmt fn_f1 4 0.
Proof.
  pose proof (execute_pointwise (λ _, test_dominators) fn_f1 4 0) as Hpoint.
  case_decide as Hin.
  - apply Hpoint. vm_compute. apply NoDup_ListNoDup.
    repeat constructor; simpl; lia.
  - destruct Hin. vm_compute. apply list_elem_of_In. simpl. lia.
Defined.

(** X3: a block the dominator walk does not reach (a block that is not in
    the dominator tree below the entry block) is left exactly as it was,
    even when it holds a condition the rewriter would change. *)
Theorem execute_outside_walk compute_dominators (f : function) (bb : nat) :
  bb ∉ walk_order (calculate_dominance_info compute_dominators f) →
  basic_block_info (execute compute_dominators f) !! bb
  = basic_block_info f !! bb.
Proof.
  intros Hout. rewrite execute_fixed_rewriter.
  apply foldl_rewrite_at_other_block.
  intros p [Hp _]%elem_of_walk_positions. congruence.
Qed.

Lemma execute_outside_walk_witness :
  basic_block_info (execute (λ _, test_dominators_partial) fn_f1) !! 4
  = Some (mk_bb [] [gcond LT_EXPR (int_name 3) (int_cst 0)]
            [mk_edge 5 EDGE_TRUE_VALUE; mk_edge 6 EDGE_FALSE_VALUE]).
Proof.
  rewrite (execute_outside_walk (λ _, test_dominators_partial) fn_f1 4).
  - reflexivity.
  - rewrite list_elem_of_In. cbv. lia.
Defined.

(** X4: the pass does not change how any operand classifies, nor what the
    rewriter makes of any condition: the classifier and the rewriter give
    the same answers on the body the pass leaves as on the body it was
    given. *)
Theorem execute_keeps_classification compute_dominators (f : function) :
  (∀ value, classify (execute compute_dominators f) value = classify f value)
  ∧ (∀ stmt, optimize_signed_comparison (execute compute_dominators f) stmt
             = optimize_signed_comparison f stmt).
Proof.
  pose proof (execute_same_but_conds compute_dominators f) as Hframe. split.
  - intros value. unfold classify. by rewrite (prop_stable f _ _ Hframe).
  - intros stmt. by apply optimize_stable.
Qed.

(** X5: without a subtraction of signed integers there is nothing to do.
    When no value of the body classifies as a subtraction, the pass hands
    the body back unchanged. *)
Theorem execute_no_subtraction compute_dominators (f : function) :
  (∀ value x y, classify f value ≠ Subtraction x y) →
  execute compute_dominators f = f.
Proof.
  intros Hnone. rewrite execute_fixed_rewriter.
  assert (∀ s, optimize_signed_comparison f s = s) as Hid.
  { intros [| | | |code lhs rhs| |]; try done.
    rewrite optimize_by_classification.
    destruct (ordered_comparison code); [|done].
    destruct (classify f lhs) as [|x y|] eqn:Hl;
      destruct (classify f rhs) as [|x' y'|] eqn:Hr; try done.
    - by destruct (Hnone rhs x' y').
    - by destruct (Hnone lhs x y). }
  induction (walk_positions _ f) as [|p ps IH]; simpl; [done|].
  assert (rewrite_at (optimize_signed_comparison f) f p = f) as ->; [|done].
  unfold rewrite_at. destruct (gsi_stmt f p.1 p.2) as [s|] eqn:Hs; [|done].
  case_bool_decide; [|done]. rewrite Hid. by apply set_stmt_id.
Qed.

Lemma execute_no_subtraction_witness :
  execute (λ _, test_dominators) fn_unsigned = fn_unsigned.
Proof.
  apply (execute_no_subtraction (λ _, test_dominators) fn_unsigned).
  intros value x y (ty & v & lhs & -> & Hdef & Hx & _)%classify_Subtraction.
  unfold SSA_NAME_DEF_STMT, fn_unsigned in Hdef. cbn [ssa_names] in Hdef.
  destruct (decide (v = 3)) as [->|Hne].
  - rewrite lookup_singleton_eq in Hdef. vm_compute in Hdef.
    injection Hdef as <- <- <-. discriminate Hx.
  - rewrite lookup_singleton_ne in Hdef by done. discriminate Hdef.
Defined.

(** ** Soundness of the whole pass *)

Lemma optimize_keeps_branch (f : function) (ρ : environment) (stmt : gimple) :
  no_overflow_run f ρ →
  eval_cond ρ (optimize_signed_comparison f stmt) = eval_cond ρ stmt.
Proof.
  intros Hrun. destruct stmt as [| | | |code lhs rhs| |]; try reflexivity.
  rewrite optimize_by_classification.
  destruct (ordered_comparison code) eqn:Hord; [|reflexivity].
  destruct (classify f lhs) as [|x y|] eqn:Hl;
    destruct (classify f rhs) as [|x' y'|] eqn:Hr; try reflexivity.
  - apply classify_Zero, integer_zerop_inv in Hl as [tyz ->].
    apply classify_Subtraction in Hr as (ty & v & d & -> & Hdef & Hx & Hy).
    destruct (Hrun _ _ _ _ _ Hdef Hx Hy) as (a & b & Ha & Hb & Hfit & Hv).
    cbn. rewrite Ha, Hb, Hv. cbn. unfold eval_minus.
    rewrite wrap_representable by done.
    symmetry. by apply comparison_of_difference.
  - apply classify_Zero, integer_zerop_inv in Hr as [tyz ->].
    apply classify_Subtraction in Hl as (ty & v & d & -> & Hdef & Hx & Hy).
    destruct (Hrun _ _ _ _ _ Hdef Hx Hy) as (a & b & Ha & Hb & Hfit & Hv).
    cbn. rewrite Ha, Hb, Hv. cbn. unfold eval_minus.
    rewrite wrap_representable by done.
    symmetry. by apply comparison_of_difference.
Qed.

Lemma gsi_stmt_rewrite_at_cases (F : gimple → gimple) (g : function)
    (p q : stmt_pos) :
  gsi_stmt (rewrite_at F g p) q.1 q.2 = gsi_stmt g q.1 q.2
  ∨ gsi_stmt (rewrite_at F g p) q.1 q.2 = F <$> gsi_stmt g q.1 q.2.
Proof.
  destruct (decide (p = q)) as [->|Hpq].
  - unfold rewrite_at. destruct (gsi_stmt g q.1 q.2) as [s|] eqn:Hs; [|by left].
    case_bool_decide; [|by left].
    right. simpl. apply gsi_stmt_set_stmt_eq. eauto.
  - left. by apply gsi_stmt_rewrite_at_ne.
Qed.

Lemma foldl_rewrite_at_eval (F : gimple → gimple) (ρ : environment)
    (g : function) (ps : list stmt_pos) (q : stmt_pos) :
  (∀ s, eval_cond ρ (F s) = eval_cond ρ s) →
  eval_cond ρ <$> gsi_stmt (foldl (rewrite_at F) g ps) q.1 q.2
  = eval_cond ρ <$> gsi_stmt g q.1 q.2.
Proof.
  intros HF. induction ps as [|p ps IH] in g |- *; simpl; [done|].
  rewrite IH. destruct (gsi_stmt_rewrite_at_cases F g p q) as [->| ->]; [done|].
  destruct (gsi_stmt g q.1 q.2); simpl; by rewrite ?HF.
Qed.

Lemma no_overflow_run_same_but_conds (f g : function) (ρ : environment) :
  same_but_conds f g → no_overflow_run f ρ → no_overflow_run g ρ.
Proof.
  intros Hfg Hrun ty version lhs x y Hdef.
  apply (Hrun ty version lhs).
  pose proof (same_but_conds_def_stmt f g (SsaName ty version) Hfg) as Hsame.
  rewrite Hdef in Hsame. apply same_but_operands_sym in Hsame. exact Hsame.
Qed.

(** X6: the pass is sound as a whole.  In every run in which no signed
    subtraction overflows, each condition of the function takes after the
    pass the branch it took before; and such a run of the body the pass
    was given is also such a run of the body it leaves. *)
Theorem execute_sound compute_dominators (f : function) (ρ : environment) :
  no_overflow_run f ρ →
  (∀ bb i, eval_cond ρ <$> gsi_stmt (execute compute_dominators f) bb i
           = eval_cond ρ <$> gsi_stmt f bb i)
  ∧ no_overflow_run (execute compute_dominators f) ρ.
Proof.
  intros Hrun. split.
  - intros bb i. rewrite execute_fixed_rewriter.
    apply (foldl_rewrite_at_eval _ ρ f _ (bb, i)).
    intros s. by apply optimize_keeps_branch.
  - apply (no_overflow_run_same_but_conds f); [|done].
    apply execute_same_but_conds.
Qed.

Lemma no_overflow_run_f1 : no_overflow_run fn_f1 run_f1.
Proof.
  intros ty version lhs x y Hdef _ _.
  unfold SSA_NAME_DEF_STMT, fn_f1 in Hdef. cbn [ssa_names] in Hdef.
  destruct (decide (version = 3)) as [->|Hne].
  - rewrite lookup_singleton_eq in Hdef. vm_compute in Hdef.
    injection Hdef as <- <- <-.
    exists 5%Z, 7%Z. repeat split; vm_compute; congruence.
  - rewrite lookup_singleton_ne in Hdef by done. discriminate Hdef.
Qed.

Lemma execute_sound_witness :
  eval_cond run_f1 <$> gsi_stmt (execute (λ _, test_dominators) fn_f1) 2 1
  = eval_cond run_f1 <$> gsi_stmt fn_f1 2 1
  ∧ no_overflow_run (execute (λ _, test_dominators) fn_f1) run_f1.
Proof.
  pose proof (execute_sound (λ _, test_dominators) fn_f1 run_f1 no_overflow_run_f1)
    as [Hbranch Hrun].
  split; [apply Hbranch|exact Hrun].
Defined.

(** ** What the rewriter and the classifier hand back *)

(** X7: whenever the rewriter changes a condition, both operands of the
    condition it leaves are of signed integer type: a rewritten condition
    always compares two signed integers. *)
Theorem optimize_signed_operands (f : function) code lhs rhs lhs' rhs' :
  optimize_signed_comparison f (gcond code lhs rhs) = gcond code lhs' rhs' →
  (lhs', rhs') ≠ (lhs, rhs) →
  is_signed_integer lhs' = true ∧ is_signed_integer rhs' = true.
Proof.
  rewrite optimize_by_classification.
  destruct (ordered_comparison code); [|by intros [= <- <-]].
  destruct (classify f lhs) as [|x y|] eqn:Hl;
    destruct (classify f rhs) as [|x' y'|] eqn:Hr;
    try (by intros [= <- <-]).
  - apply classify_Subtraction in Hr as (ty & v & d & _ & _ & Hx & Hy).
    by intros [= <- <-].
  - apply classify_Subtraction in Hl as (ty & v & d & _ & _ & Hx & Hy).
    by intros [= <- <-].
Qed.

Lemma optimize_signed_operands_witness :
  is_signed_integer (int_name 1) = true ∧ is_signed_integer (int_name 2) = true.
Proof.
  apply (optimize_signed_operands fn_f1 GT_EXPR (int_name 3) (int_cst 0)).
  - reflexivity.
  - discriminate.
Defined.

(** X8: whatever the classifier hands back has the type of the operand it
    was asked about: the zero is the operand itself, and the MINUS_EXPR it
    builds is given the type of the SSA name, whatever the types of the two
    operands of the subtraction are. *)
Theorem prop_integer_zero_or_minus_expr_type (f : function) (expr t : tree) :
  prop_integer_zero_or_minus_expr f expr = Some t →
  TREE_TYPE t = TREE_TYPE expr.
Proof.
  intros [[_ ->]|(ty & v & lhs & x & y & -> & _ & _ & _ & ->)]%prop_Some_inv;
    reflexivity.
Qed.

Lemma prop_integer_zero_or_minus_expr_type_witness :
  TREE_TYPE (Expr2 MINUS_EXPR integer_type_node (int_name 1) (int_name 2))
  = TREE_TYPE (int_name 3).
Proof.
  apply (prop_integer_zero_or_minus_expr_type fn_f1). reflexivity.
Defined.

(** ** Why the pass is gated and restricted to signed integers *)

(** X9: with wrap-around the identity fails at every signed width.  For a
    signed type of any precision, the difference of its largest and its
    smallest value does not fit the type, wraps to a negative number, and
    so compares below zero although the largest value is not below the
    smallest: [(x - y) < 0] and [x < y] disagree. *)
Theorem wrap_around_identity_fails (ty : tree_type) :
  TYPE_UNSIGNED ty = false → (1 ≤ TYPE_PRECISION ty)%Z →
  ¬ representable ty (max_value ty - min_value ty)
  ∧ eval_comparison LT_EXPR (eval_minus ty (max_value ty) (min_value ty)) 0
    = Some true
  ∧ eval_comparison LT_EXPR (max_value ty) (min_value ty) = Some false.
Proof.
  intros Hsigned Hprec.
  unfold representable, eval_minus, wrap, max_value, min_value.
  rewrite Hsigned.
  assert (2 ^ TYPE_PRECISION ty = 2 * 2 ^ (TYPE_PRECISION ty - 1))%Z as Hpow.
  { rewrite <- Z.pow_succ_r by lia. f_equal. lia. }
  assert (0 < 2 ^ (TYPE_PRECISION ty - 1))%Z as Hpos
    by (apply Z.pow_pos_nonneg; lia).
  rewrite Hpow. set (h := (2 ^ (TYPE_PRECISION ty - 1))%Z) in *.
  assert ((h - 1 - - h + h) mod (2 * h) = h - 1)%Z as Hwrap.
  { replace (h - 1 - - h + h)%Z with (h - 1 + 1 * (2 * h))%Z by lia.
    rewrite Z.mod_add by lia. apply Z.mod_small. lia. }
  split; [lia|]. rewrite Hwrap. simpl. split; f_equal.
  - apply Z.ltb_lt. lia.
  - apply Z.ltb_ge. lia.
Qed.

Lemma wrap_around_identity_fails_witness :
  ¬ representable integer_type_node
      (max_value integer_type_node - min_value integer_type_node)
  ∧ eval_comparison LT_EXPR
      (eval_minus integer_type_node (max_value integer_type_node)
         (min_value integer_type_node)) 0
    = Some true
  ∧ eval_comparison LT_EXPR (max_value integer_type_node)
      (min_value integer_type_node)
    = Some false.
Proof.
  apply (wrap_around_identity_fails integer_type_node).
  - reflexivity.
  - simpl. lia.
Defined.

(** X10: for unsigned integers the identity does not hold.  The difference
    of two unsigned values, as the machine computes it, is never below
    zero; so whenever [x < y] the comparisons [(x - y) < 0] and [x < y]
    disagree. *)
Theorem unsigned_identity_fails (ty : tree_type) (x y : Z) :
  TYPE_UNSIGNED ty = true → (0 ≤ TYPE_PRECISION ty)%Z →
  eval_comparison LT_EXPR (eval_minus ty x y) 0 = Some false
  ∧ ((x < y)%Z →
     eval_comparison LT_EXPR (eval_minus ty x y) 0
     ≠ eval_comparison LT_EXPR x y).
Proof.
  intros Hunsigned Hprec.
  assert (eval_comparison LT_EXPR (eval_minus ty x y) 0 = Some false) as Hneg.
  { unfold eval_minus, wrap. rewrite Hunsigned. simpl. f_equal.
    apply Z.ltb_ge. apply Z.mod_pos_bound. by apply Z.pow_pos_nonneg. }
  split; [exact Hneg|].
  intros Hlt. rewrite Hneg. simpl.
  apply Z.ltb_lt in Hlt. rewrite Hlt. discriminate.
Qed.

Lemma unsigned_identity_fails_witness :
  eval_comparison LT_EXPR (eval_minus unsigned_type_node 0 1) 0 = Some false
  ∧ eval_comparison LT_EXPR (eval_minus unsigned_type_node 0 1) 0
    ≠ eval_comparison LT_EXPR 0 1.
Proof.
  pose proof (unsigned_identity_fails unsigned_type_node 0 1 eq_refl) as Hfails.
  destruct Hfails as [Hneg Hdiffer]; [simpl; lia|].
  split; [exact Hneg|apply Hdiffer; lia].
Defined.

(** ** The shape of the dominator tree *)

(** X11: the body the pass leaves depends on the dominator tree only
    through the blocks it holds.  Two dominator computations whose walks
    reach the same blocks, in whatever order and under whatever tree shape,
    make the pass leave the same body. *)
Theorem execute_dominator_shape compute_dominators compute_dominators'
    (f : function) :
  walk_order (calculate_dominance_info compute_dominators f)
    ≡ₚ walk_order (calculate_dominance_info compute_dominators' f) →
  execute compute_dominators f = execute compute_dominators' f.
Proof.
  intros Hperm. rewrite !execute_fixed_rewriter.
  apply foldl_rewrite_at_permutation. unfold walk_positions.
  by rewrite Hperm.
Qed.

Lemma execute_dominator_shape_witness :
  execute (λ _, test_dominators) fn_f1
  = execute (λ _, test_dominators_swapped) fn_f1.
Proof.
  apply (execute_dominator_shape (λ _, test_dominators)
           (λ _, test_dominators_swapped) fn_f1).
  apply NoDup_Permutation.
  - apply NoDup_ListNoDup. vm_compute. repeat constructor; simpl; lia.
  - apply NoDup_ListNoDup. vm_compute. repeat constructor; simpl; lia.
  - intros bb. rewrite !list_elem_of_In. cbv. lia.
Defined.
